(** * The Game of Hog: the optimal-strategy probability engine

    A shallow embedding of [hog.py]: the turn simulator ([roll_dice],
    [take_turn]) and the recursive probability engine
    ([number_of_ways_to_score], [probability_of_scoring],
    [probability_of_winning_by_rolling_n],
    [probability_of_winning_with_turn_end_scores], [best_num_dice_to_roll]).

    Conventions of the embedding.
    - A Python [int] is a [Z]; [%] and [//] with a positive divisor are
      [Z.modulo] and [Z.div] (both floor).
    - A Python call that raises (an [AssertionError], a [ZeroDivisionError],
      a [RecursionError] of a recursion that never reaches its base case)
      returns [None], or a named error where the kind of error matters.
    - The [@memoized] decorator caches the results of pure functions of their
      arguments; it changes no result, so the functions are embedded without
      their caches.
    - The engine computes with Python's numbers: the integers 0 and 1 and
      binary64 floats.  The engine is written once over an interface of the
      arithmetic operations it uses, [NumOps], and instantiated twice: with
      exact rationals ([QOps]) and with IEEE-754 binary64 ([F64Ops]), the
      arithmetic CPython really runs. *)

From Stdlib Require Import ZArith QArith Qreduction Qpower List Bool Lia.
From Stdlib Require Import Floats.SpecFloat.
From Stdlib Require String.
Import ListNotations.

Local Open Scope Z_scope.

(** ** Fallible computations *)

Definition bind {A B : Type} (m : option A) (k : A -> option B) : option B :=
  match m with
  | Some a => k a
  | None => None
  end.

Notation "x <- m ;; k" := (bind m (fun x => k))
  (at level 61, m at next level, right associativity).

(** ** Counted [while] loops

    [for_upto lo hi body acc] is the Python loop
    [[
      i = lo
      while i <= hi:
          acc = body(i, acc)
          i += 1
    ]]
    whose body may raise. *)

Fixpoint while_upto {A : Type} (cnt : nat) (i : Z)
    (body : Z -> A -> option A) (acc : A) : option A :=
  match cnt with
  | O => Some acc
  | S cnt' =>
      match body i acc with
      | Some acc' => while_upto cnt' (i + 1) body acc'
      | None => None
      end
  end.

Definition for_upto {A : Type} (lo hi : Z)
    (body : Z -> A -> option A) (acc : A) : option A :=
  while_upto (Z.to_nat (hi - lo + 1)) lo body acc.

(** ** Constants *)

Definition MAX_RECURSION_DEPTH : Z := 10000. (* set by the selector, see below *)
Definition MAX_DICE_ROLLS : Z := 10.
Definition GOAL_SCORE : Z := 100.

(** ** Combinatorics engine *)

(** [number_of_ways_to_score], with the depth of the recursion bounded by
    [fuel]: [None] when the bound is hit. *)
Fixpoint number_of_ways_to_score_at (fuel : nat) (k n s : Z) : option Z :=
  match fuel with
  | O => None
  | S fuel' =>
      if n =? 0 then
        if k =? 0 then Some 1 else Some 0
      else
        for_upto 2 s
          (fun dice ways =>
             w <- number_of_ways_to_score_at fuel' (k - dice) (n - 1) s ;;
             Some (ways + w))
          0
  end.

(** The recursion on [n - 1] reaches [n == 0] after [n] calls when
    [0 <= n]; for [n < 0] it never does (and [fuel = 1] already shows it,
    unless [s < 2] and the loop body never runs). *)
Definition number_of_ways_to_score (k n s : Z) : option Z :=
  number_of_ways_to_score_at (S (Z.to_nat n)) k n s.

(** ** The arithmetic of the engine *)

Class NumOps (R : Type) : Type := {
  of_int : Z -> R;         (* an int used where a float is expected *)
  add : R -> R -> R;       (* x + y *)
  sub : R -> R -> R;       (* x - y *)
  mul : R -> R -> R;       (* x * y *)
  int_div : Z -> Z -> R;   (* a / b, true division of two ints, b <> 0 *)
  gt : R -> R -> bool      (* x > y *)
}.

(** True division of two ints; division by zero raises. *)
Definition truediv {R : Type} `{NumOps R} (a b : Z) : option R :=
  if b =? 0 then None else Some (int_div a b).

(** Exact rational arithmetic; every result is kept in lowest terms, so
    equal values are equal terms. *)
#[export] Instance QOps : NumOps Q := {
  of_int := inject_Z;
  add := fun x y => Qred (x + y)%Q;
  sub := fun x y => Qred (x - y)%Q;
  mul := fun x y => Qred (x * y)%Q;
  int_div := fun a b => Qred (inject_Z a / inject_Z b)%Q;
  gt := fun x y => match (y ?= x)%Q with Lt => true | _ => false end
}.

(** IEEE-754 binary64 with round-to-nearest-even, the arithmetic of
    CPython's [float]. *)
Module F64.

Definition prec : Z := 53.
Definition emax : Z := 1024.

(** The float nearest to an integer (exact below 2^53). *)
Definition of_Z (z : Z) : spec_float := binary_normalize prec emax z 0 false.

(** An integer as an unrounded mantissa with exponent 0. *)
Definition raw (z : Z) : spec_float :=
  match z with
  | Z0 => S754_zero false
  | Zpos p => S754_finite false p 0
  | Zneg p => S754_finite true p 0
  end.

(** [a / b] on ints: the quotient rounded once. *)
Definition div_Z (a b : Z) : spec_float := SFdiv prec emax (raw a) (raw b).

Definition gtb (x y : spec_float) : bool := SFltb y x.

End F64.

#[export] Instance F64Ops : NumOps spec_float := {
  of_int := F64.of_Z;
  add := SFadd F64.prec F64.emax;
  sub := SFsub F64.prec F64.emax;
  mul := SFmul F64.prec F64.emax;
  int_div := F64.div_Z;
  gt := F64.gtb
}.

(** ** The engine *)

Section Engine.

Context {R : Type} {ops : NumOps R}.

(** [probability_of_scoring(k, n, s)]; [pow] is on ints ([0 <= n]). *)
Definition probability_of_scoring (k n s : Z) : option R :=
  if k =? 1 then
    q <- truediv ((s - 1) ^ n) (s ^ n) ;;
    Some (sub (of_int 1) q)
  else
    ways <- number_of_ways_to_score k n s ;;
    truediv ways (s ^ n).

(** The three mutually recursive functions, with the depth of the chain
    of calls bounded by [fuel].  ([best_num_dice_to_roll] first raises the
    interpreter's recursion limit to [MAX_RECURSION_DEPTH]; the bound on the
    depth proved below, 601 calls, is well within it.) *)
Fixpoint best_num_dice_to_roll_at (fuel : nat) (score opponent_score : Z)
    {struct fuel} : option Z :=
  match fuel with
  | O => None
  | S fuel' =>
      r <- for_upto 0 MAX_DICE_ROLLS
             (fun num_of_dice (best : R * Z) =>
                let (best_probability, best_num_of_dice) := best in
                curr_probability <-
                  probability_of_winning_by_rolling_n_at fuel'
                    score opponent_score num_of_dice ;;
                if gt curr_probability best_probability
                then Some (curr_probability, num_of_dice)
                else Some (best_probability, best_num_of_dice))
             (of_int 0, 1) ;;
      Some (snd r)
  end

with probability_of_winning_by_rolling_n_at (fuel : nat)
    (score opponent_score n : Z) {struct fuel} : option R :=
  match fuel with
  | O => None
  | S fuel' =>
      let free_bacon_score :=
        Z.max (opponent_score mod 10) (opponent_score / 10) + 1 in
      let sides := if (score + opponent_score) mod 7 =? 0 then 4 else 6 in
      if n =? 0 then
        probability_of_winning_with_turn_end_scores_at fuel'
          (score + free_bacon_score) opponent_score
      else
        for_upto 1 (sides * n)
          (fun possible_score win_probability =>
             p <- probability_of_scoring possible_score n sides ;;
             v <- probability_of_winning_with_turn_end_scores_at fuel'
                    (score + possible_score) opponent_score ;;
             Some (add win_probability (mul p v)))
          (of_int 0)
  end

with probability_of_winning_with_turn_end_scores_at (fuel : nat)
    (score opponent_score : Z) {struct fuel} : option R :=
  match fuel with
  | O => None
  | S fuel' =>
      let (score, opponent_score) :=
        if (score * 2 =? opponent_score) || (opponent_score * 2 =? score)
        then (opponent_score, score)
        else (score, opponent_score) in
      if score >=? GOAL_SCORE then Some (of_int 1)
      else if opponent_score >=? GOAL_SCORE then Some (of_int 0)
      else
        opponent_num_rolls <-
          best_num_dice_to_roll_at fuel' opponent_score score ;;
        probability_of_opponent_winning <-
          probability_of_winning_by_rolling_n_at fuel'
            opponent_score score opponent_num_rolls ;;
        Some (sub (of_int 1) probability_of_opponent_winning)
  end.

(** The number of turns that can still be played from a state: every turn
    adds at least one point to the sum of the scores, and a sum of 199
    forces one score to 100. *)
Definition turns_left (score opponent_score : Z) : nat :=
  Z.to_nat (199 - (score + opponent_score)).

Definition best_num_dice_to_roll (score opponent_score : Z) : option Z :=
  best_num_dice_to_roll_at
    (3 * turns_left score opponent_score + 3) score opponent_score.

Definition probability_of_winning_by_rolling_n
    (score opponent_score n : Z) : option R :=
  probability_of_winning_by_rolling_n_at
    (3 * turns_left score opponent_score + 2) score opponent_score n.

Definition probability_of_winning_with_turn_end_scores
    (score opponent_score : Z) : option R :=
  probability_of_winning_with_turn_end_scores_at
    (3 * turns_left score opponent_score + 4) score opponent_score.

Definition final_strategy (score opponent_score : Z) : option Z :=
  best_num_dice_to_roll score opponent_score.

End Engine.

Arguments best_num_dice_to_roll_at : simpl never.
Arguments probability_of_winning_by_rolling_n_at : simpl never.
Arguments probability_of_winning_with_turn_end_scores_at : simpl never.
Arguments number_of_ways_to_score_at : simpl never.

(** * Properties *)

(** ** Loops *)

Section Loops.

Context {A : Type}.

Lemma while_upto_ext (cnt : nat) :
  forall (lo : Z) (body1 body2 : Z -> A -> option A) (acc : A),
    (forall i a, lo <= i < lo + Z.of_nat cnt -> body1 i a = body2 i a) ->
    while_upto cnt lo body1 acc = while_upto cnt lo body2 acc.
Proof.
  induction cnt as [|cnt IH]; intros lo body1 body2 acc Hext; simpl.
  - reflexivity.
  - rewrite (Hext lo acc) by lia.
    destruct (body2 lo acc) as [acc'|]; [|reflexivity].
    apply IH. intros i a Hi. apply Hext. lia.
Qed.

Lemma while_upto_mono (cnt : nat) :
  forall (lo : Z) (body1 body2 : Z -> A -> option A) (acc r : A),
    (forall i a b, lo <= i < lo + Z.of_nat cnt ->
                   body1 i a = Some b -> body2 i a = Some b) ->
    while_upto cnt lo body1 acc = Some r ->
    while_upto cnt lo body2 acc = Some r.
Proof.
  induction cnt as [|cnt IH]; intros lo body1 body2 acc r Hmono; simpl.
  - trivial.
  - destruct (body1 lo acc) as [acc'|] eqn:E; [|discriminate].
    rewrite (Hmono lo acc acc') by (lia || assumption).
    apply IH. intros i a b Hi. apply Hmono. lia.
Qed.

Lemma while_upto_total (cnt : nat) :
  forall (lo : Z) (body : Z -> A -> option A) (acc : A),
    (forall i a, lo <= i < lo + Z.of_nat cnt -> exists b, body i a = Some b) ->
    exists r, while_upto cnt lo body acc = Some r.
Proof.
  induction cnt as [|cnt IH]; intros lo body acc Htot; simpl.
  - eauto.
  - destruct (Htot lo acc) as [acc' E]; [lia|]. rewrite E.
    apply IH. intros i a Hi. apply Htot. lia.
Qed.

(** A loop invariant [I i acc], "before the iteration at index [i]". *)
Lemma while_upto_inv (I : Z -> A -> Prop) (cnt : nat) :
  forall (lo : Z) (body : Z -> A -> option A) (acc r : A),
    (forall i a b, lo <= i < lo + Z.of_nat cnt ->
                   I i a -> body i a = Some b -> I (i + 1) b) ->
    I lo acc ->
    while_upto cnt lo body acc = Some r ->
    I (lo + Z.of_nat cnt) r.
Proof.
  induction cnt as [|cnt IH]; intros lo body acc r Hstep Hinit; simpl.
  - intros [= <-]. now rewrite Z.add_0_r.
  - destruct (body lo acc) as [acc'|] eqn:E; [|discriminate].
    intros Hrun.
    replace (lo + Z.pos (Pos.of_succ_nat cnt)) with (lo + 1 + Z.of_nat cnt) by lia.
    apply (IH (lo + 1) body acc' r); trivial.
    + intros i a b Hi. apply Hstep. lia.
    + apply (Hstep lo acc acc'); trivial. lia.
Qed.

End Loops.

(** ** The combinatorics engine, as a function of the number of dice left *)

(** The sum of [f] over the [cnt] integers from [lo] on. *)
Fixpoint Zsum (cnt : nat) (lo : Z) (f : Z -> Z) : Z :=
  match cnt with
  | O => 0
  | S cnt' => f lo + Zsum cnt' (lo + 1) f
  end.

(** The recursion of [number_of_ways_to_score] on the number [m] of dice. *)
Fixpoint ways (m : nat) (k s : Z) : Z :=
  match m with
  | O => if k =? 0 then 1 else 0
  | S m' => Zsum (Z.to_nat (s - 1)) 2 (fun dice => ways m' (k - dice) s)
  end.

Lemma while_upto_Zsum (f : Z -> Z) (cnt : nat) :
  forall lo acc,
    while_upto cnt lo (fun i a => Some (a + f i)) acc = Some (acc + Zsum cnt lo f).
Proof.
  induction cnt as [|cnt IH]; intros lo acc; simpl.
  - now rewrite Z.add_0_r.
  - rewrite IH. f_equal. lia.
Qed.

Lemma number_of_ways_to_score_at_S (fuel : nat) (k n s : Z) :
  number_of_ways_to_score_at (S fuel) k n s =
  if n =? 0 then
    if k =? 0 then Some 1 else Some 0
  else
    for_upto 2 s
      (fun dice ways =>
         w <- number_of_ways_to_score_at fuel (k - dice) (n - 1) s ;;
         Some (ways + w))
      0.
Proof. reflexivity. Qed.

(** With fuel for [n] calls and the base case, the recursion returns. *)
Lemma number_of_ways_to_score_at_ways (fuel : nat) :
  forall k n s,
    0 <= n -> (Z.to_nat n < fuel)%nat ->
    number_of_ways_to_score_at fuel k n s = Some (ways (Z.to_nat n) k s).
Proof.
  induction fuel as [|fuel IH]; intros k n s Hn Hfuel; [lia|].
  rewrite number_of_ways_to_score_at_S.
  destruct (Z.eqb_spec n 0) as [->|Hn0].
  - simpl. now destruct (k =? 0).
  - replace (Z.to_nat n) with (S (Z.to_nat (n - 1))) by lia.
    simpl ways. unfold for_upto.
    replace (s - 2 + 1) with (s - 1) by lia.
    rewrite (while_upto_ext _ _ _
               (fun i a => Some (a + ways (Z.to_nat (n - 1)) (k - i) s))).
    + now rewrite while_upto_Zsum.
    + intros i a _. rewrite IH by lia. reflexivity.
Qed.

Lemma number_of_ways_to_score_ways (k n s : Z) :
  0 <= n -> number_of_ways_to_score k n s = Some (ways (Z.to_nat n) k s).
Proof.
  intros Hn. unfold number_of_ways_to_score.
  apply number_of_ways_to_score_at_ways; lia.
Qed.

(** More fuel changes no result. *)
Lemma number_of_ways_to_score_at_mono (fuel : nat) :
  forall k n s w,
    number_of_ways_to_score_at fuel k n s = Some w ->
    number_of_ways_to_score_at (S fuel) k n s = Some w.
Proof.
  induction fuel as [|fuel IH]; intros k n s w; [discriminate|].
  rewrite (number_of_ways_to_score_at_S (S fuel)), (number_of_ways_to_score_at_S fuel).
  destruct (n =? 0); [trivial|].
  unfold for_upto. apply while_upto_mono.
  intros i a b _.
  destruct (number_of_ways_to_score_at fuel (k - i) (n - 1) s) as [w'|] eqn:E;
    [|discriminate].
  now rewrite (IH _ _ _ _ E).
Qed.

(** ** The mutual recursion: unfolding, fuel and termination *)

Section EngineFacts.

Context {R : Type} {ops : NumOps R}.

(** The Swine Swap of the two scores at the end of a turn. *)
Definition swine_swap (score opponent_score : Z) : Z * Z :=
  if (score * 2 =? opponent_score) || (opponent_score * 2 =? score)
  then (opponent_score, score)
  else (score, opponent_score).

Definition free_bacon (opponent_score : Z) : Z :=
  Z.max (opponent_score mod 10) (opponent_score / 10) + 1.

Definition hog_wild_sides (score opponent_score : Z) : Z :=
  if (score + opponent_score) mod 7 =? 0 then 4 else 6.

(** One step of the scan of [best_num_dice_to_roll], given the win
    probability [p] of the current roll count. *)
Definition scan_step (p : Z -> option R) (num_of_dice : Z) (best : R * Z)
    : option (R * Z) :=
  let (best_probability, best_num_of_dice) := best in
  curr_probability <- p num_of_dice ;;
  if gt curr_probability best_probability
  then Some (curr_probability, num_of_dice)
  else Some (best_probability, best_num_of_dice).

(** One step of the sum of [probability_of_winning_by_rolling_n], given
    the value [v] of a turn-end state. *)
Definition sum_step (v : Z -> Z -> option R) (score opponent_score n sides : Z)
    (possible_score : Z) (win_probability : R) : option R :=
  p <- probability_of_scoring possible_score n sides ;;
  v <- v (score + possible_score) opponent_score ;;
  Some (add win_probability (mul p v)).

Lemma best_at_S (fuel : nat) (score opponent_score : Z) :
  best_num_dice_to_roll_at (S fuel) score opponent_score =
  (r <- for_upto 0 MAX_DICE_ROLLS
          (scan_step (probability_of_winning_by_rolling_n_at fuel
                        score opponent_score))
          (of_int 0, 1) ;;
   Some (snd r)).
Proof. reflexivity. Qed.

Lemma rolling_at_S (fuel : nat) (score opponent_score n : Z) :
  probability_of_winning_by_rolling_n_at (S fuel) score opponent_score n =
  if n =? 0 then
    probability_of_winning_with_turn_end_scores_at fuel
      (score + free_bacon opponent_score) opponent_score
  else
    for_upto 1 (hog_wild_sides score opponent_score * n)
      (sum_step (probability_of_winning_with_turn_end_scores_at fuel)
         score opponent_score n (hog_wild_sides score opponent_score))
      (of_int 0).
Proof. reflexivity. Qed.

Lemma turn_end_at_S (fuel : nat) (score opponent_score : Z) :
  probability_of_winning_with_turn_end_scores_at (S fuel) score opponent_score =
  let (score', opponent_score') := swine_swap score opponent_score in
  if score' >=? GOAL_SCORE then Some (of_int 1)
  else if opponent_score' >=? GOAL_SCORE then Some (of_int 0)
  else
    opponent_num_rolls <-
      best_num_dice_to_roll_at fuel opponent_score' score' ;;
    probability_of_opponent_winning <-
      probability_of_winning_by_rolling_n_at fuel
        opponent_score' score' opponent_num_rolls ;;
    Some (sub (of_int 1) probability_of_opponent_winning).
Proof. reflexivity. Qed.

(** The swap keeps the sum of the two scores. *)
Lemma swine_swap_sum (score opponent_score : Z) :
  fst (swine_swap score opponent_score) + snd (swine_swap score opponent_score)
  = score + opponent_score.
Proof.
  unfold swine_swap.
  destruct ((score * 2 =? opponent_score) || (opponent_score * 2 =? score));
    simpl; lia.
Qed.

(** Free bacon is worth at least one point, whatever the opponent's score. *)
Lemma free_bacon_pos (opponent_score : Z) : 1 <= free_bacon opponent_score.
Proof.
  unfold free_bacon.
  pose proof (Z.mod_pos_bound opponent_score 10 ltac:(lia)). lia.
Qed.

Lemma hog_wild_sides_cases (score opponent_score : Z) :
  hog_wild_sides score opponent_score = 4 \/
  hog_wild_sides score opponent_score = 6.
Proof. unfold hog_wild_sides. destruct (_ =? 0); auto. Qed.

(** [probability_of_scoring] returns for every positive count of dice with
    four or six sides. *)
Lemma probability_of_scoring_total (k n s : Z) :
  0 <= n -> s = 4 \/ s = 6 ->
  exists p, probability_of_scoring k n s = Some p.
Proof.
  intros Hn Hs. unfold probability_of_scoring, truediv.
  assert (Hpow : s ^ n <> 0) by (apply Z.pow_nonzero; lia).
  apply Z.eqb_neq in Hpow.
  destruct (k =? 1).
  - rewrite Hpow. simpl. eauto.
  - rewrite number_of_ways_to_score_ways by trivial. simpl.
    rewrite Hpow. eauto.
Qed.

(** *** More fuel changes no result *)

Lemma scan_step_mono (p1 p2 : Z -> option R) :
  (forall n v, p1 n = Some v -> p2 n = Some v) ->
  forall i a b, scan_step p1 i a = Some b -> scan_step p2 i a = Some b.
Proof.
  intros Hp i [bp bn] b. unfold scan_step.
  destruct (p1 i) as [c|] eqn:E; [|discriminate].
  now rewrite (Hp _ _ E).
Qed.

Lemma sum_step_mono (v1 v2 : Z -> Z -> option R) (score opp n sides : Z) :
  (forall s o v, v1 s o = Some v -> v2 s o = Some v) ->
  forall i a b, sum_step v1 score opp n sides i a = Some b ->
                sum_step v2 score opp n sides i a = Some b.
Proof.
  intros Hv i a b. unfold sum_step.
  destruct (probability_of_scoring i n sides) as [p|]; [|discriminate].
  simpl. destruct (v1 (score + i) opp) as [v|] eqn:E; [|discriminate].
  now rewrite (Hv _ _ _ E).
Qed.

Lemma engine_mono_S (fuel : nat) :
  (forall score opp b,
      best_num_dice_to_roll_at fuel score opp = Some b ->
      best_num_dice_to_roll_at (S fuel) score opp = Some b) /\
  (forall score opp n p,
      probability_of_winning_by_rolling_n_at fuel score opp n = Some p ->
      probability_of_winning_by_rolling_n_at (S fuel) score opp n = Some p) /\
  (forall score opp v,
      probability_of_winning_with_turn_end_scores_at fuel score opp = Some v ->
      probability_of_winning_with_turn_end_scores_at (S fuel) score opp = Some v).
Proof.
  induction fuel as [|fuel (IHb & IHp & IHv)].
  - repeat split; intros; discriminate.
  - repeat split.
    + intros score opp b.
      rewrite (best_at_S (S fuel)), (best_at_S fuel).
      destruct (for_upto 0 MAX_DICE_ROLLS
                  (scan_step (probability_of_winning_by_rolling_n_at fuel score opp))
                  (of_int 0, 1)) as [r|] eqn:E; [|discriminate].
      unfold for_upto in *.
      rewrite (while_upto_mono _ _ _ _ _ r
                 (fun i a b' _ => scan_step_mono _ _ (IHp score opp) i a b') E).
      trivial.
    + intros score opp n p.
      rewrite (rolling_at_S (S fuel)), (rolling_at_S fuel).
      destruct (n =? 0); [apply IHv|].
      unfold for_upto. apply while_upto_mono.
      intros i a b _. apply sum_step_mono, IHv.
    + intros score opp v.
      rewrite (turn_end_at_S (S fuel)), (turn_end_at_S fuel).
      destruct (swine_swap score opp) as [s' o'].
      destruct (s' >=? GOAL_SCORE); [trivial|].
      destruct (o' >=? GOAL_SCORE); [trivial|].
      destruct (best_num_dice_to_roll_at fuel o' s') as [b|] eqn:Eb; [|discriminate].
      rewrite (IHb _ _ _ Eb). simpl.
      destruct (probability_of_winning_by_rolling_n_at fuel o' s' b) as [p|] eqn:Ep;
        [|discriminate].
      now rewrite (IHp _ _ _ _ Ep).
Qed.

Lemma best_at_mono (fuel fuel' : nat) (score opp b : Z) :
  (fuel <= fuel')%nat ->
  best_num_dice_to_roll_at fuel score opp = Some b ->
  best_num_dice_to_roll_at fuel' score opp = Some b.
Proof.
  induction 1 as [|fuel' _ IH]; [trivial|].
  intros E. now apply engine_mono_S, IH.
Qed.

Lemma rolling_at_mono (fuel fuel' : nat) (score opp n : Z) (p : R) :
  (fuel <= fuel')%nat ->
  probability_of_winning_by_rolling_n_at fuel score opp n = Some p ->
  probability_of_winning_by_rolling_n_at fuel' score opp n = Some p.
Proof.
  induction 1 as [|fuel' _ IH]; [trivial|].
  intros E. now apply engine_mono_S, IH.
Qed.

Lemma turn_end_at_mono (fuel fuel' : nat) (score opp : Z) (v : R) :
  (fuel <= fuel')%nat ->
  probability_of_winning_with_turn_end_scores_at fuel score opp = Some v ->
  probability_of_winning_with_turn_end_scores_at fuel' score opp = Some v.
Proof.
  induction 1 as [|fuel' _ IH]; [trivial|].
  intros E. now apply engine_mono_S, IH.
Qed.

End EngineFacts.

Section Termination.

Context {R : Type} {ops : NumOps R}.

(** A turn-end state whose scores sum to 199 or more is decided at once:
    after the swap one of the two scores is at least 100. *)
Lemma turn_end_at_decided (fuel : nat) (score opp : Z) :
  199 <= score + opp ->
  exists v, probability_of_winning_with_turn_end_scores_at (S fuel) score opp
            = Some v.
Proof.
  intros Hsum. rewrite turn_end_at_S.
  pose proof (swine_swap_sum score opp) as Hswap.
  destruct (swine_swap score opp) as [s' o']. simpl in Hswap.
  unfold GOAL_SCORE.
  destruct (Z.geb_spec s' 100); [eauto|].
  destruct (Z.geb_spec o' 100); [eauto|]. lia.
Qed.

(** A turn returns when every state with a larger sum of scores does. *)
Lemma rolling_at_returns (fuel : nat) (score opp n : Z) :
  (forall s' o', score + opp < s' + o' ->
     exists v, probability_of_winning_with_turn_end_scores_at fuel s' o' = Some v) ->
  exists p, probability_of_winning_by_rolling_n_at (S fuel) score opp n = Some p.
Proof.
  intros Hnext. rewrite rolling_at_S.
  destruct (n =? 0).
  - apply Hnext. pose proof (free_bacon_pos opp). lia.
  - unfold for_upto. apply while_upto_total.
    intros i a Hi. unfold sum_step.
    pose proof (hog_wild_sides_cases score opp) as Hsides.
    destruct (probability_of_scoring_total i n (hog_wild_sides score opp))
      as [p ->]; [lia| trivial |].
    destruct (Hnext (score + i) opp) as [v ->]; [lia|].
    simpl. eauto.
Qed.

Lemma best_at_returns (fuel : nat) (score opp : Z) :
  (forall n, exists p,
      probability_of_winning_by_rolling_n_at fuel score opp n = Some p) ->
  exists b, best_num_dice_to_roll_at (S fuel) score opp = Some b.
Proof.
  intros Hroll. rewrite best_at_S. unfold for_upto.
  destruct (while_upto_total (Z.to_nat (MAX_DICE_ROLLS - 0 + 1)) 0
              (scan_step (probability_of_winning_by_rolling_n_at fuel score opp))
              (of_int 0, 1)) as [r ->].
  - intros i [bp bn] _. unfold scan_step.
    destruct (Hroll i) as [p ->]. simpl. destruct (gt p bp); eauto.
  - simpl. eauto.
Qed.

Lemma turn_end_at_returns (fuel : nat) (score opp : Z) :
  (forall s o, s + o = score + opp ->
     exists b, best_num_dice_to_roll_at fuel s o = Some b) ->
  (forall s o n, s + o = score + opp ->
     exists p, probability_of_winning_by_rolling_n_at fuel s o n = Some p) ->
  exists v, probability_of_winning_with_turn_end_scores_at (S fuel) score opp
            = Some v.
Proof.
  intros Hbest Hroll. rewrite turn_end_at_S.
  pose proof (swine_swap_sum score opp) as Hswap.
  destruct (swine_swap score opp) as [s' o']. simpl in Hswap.
  destruct (s' >=? GOAL_SCORE); [eauto|].
  destruct (o' >=? GOAL_SCORE); [eauto|].
  destruct (Hbest o' s') as [b ->]; [lia|]. simpl.
  destruct (Hroll o' s' b) as [p ->]; [lia|]. simpl. eauto.
Qed.

(** With [m] turns left at most, a depth of [3 m + 2], [3 m + 3] and
    [3 m + 4] calls is enough for the three functions. *)
Lemma engine_returns (m : nat) :
  (forall score opp n, (turns_left score opp <= m)%nat ->
     exists p, probability_of_winning_by_rolling_n_at (3 * m + 2) score opp n
               = Some p) /\
  (forall score opp, (turns_left score opp <= m)%nat ->
     exists b, best_num_dice_to_roll_at (3 * m + 3) score opp = Some b) /\
  (forall score opp, (turns_left score opp <= m)%nat ->
     exists v, probability_of_winning_with_turn_end_scores_at (3 * m + 4) score opp
               = Some v).
Proof.
  assert (Hstep : forall m,
    (forall score opp n, (turns_left score opp <= m)%nat ->
       exists p, probability_of_winning_by_rolling_n_at (3 * m + 2) score opp n
                 = Some p) ->
    (forall score opp, (turns_left score opp <= m)%nat ->
       exists b, best_num_dice_to_roll_at (3 * m + 3) score opp = Some b) /\
    (forall score opp, (turns_left score opp <= m)%nat ->
       exists v, probability_of_winning_with_turn_end_scores_at (3 * m + 4) score opp
                 = Some v)).
  { intros k Hroll.
    assert (Hbest : forall score opp, (turns_left score opp <= k)%nat ->
              exists b, best_num_dice_to_roll_at (3 * k + 3) score opp = Some b).
    { intros score opp Hm.
      replace (3 * k + 3)%nat with (S (3 * k + 2)) by lia.
      apply best_at_returns. intros n. now apply Hroll. }
    split; [exact Hbest|].
    intros score opp Hm.
    replace (3 * k + 4)%nat with (S (3 * k + 3)) by lia.
    apply turn_end_at_returns.
    - intros s o Hso. apply Hbest. unfold turns_left in *. now rewrite Hso.
    - intros s o n Hso.
      destruct (Hroll s o n) as [p Hp].
      { unfold turns_left in *. now rewrite Hso. }
      exists p. revert Hp. apply rolling_at_mono. lia. }
  induction m as [|m (_ & _ & IHv)].
  - assert (Hroll : forall score opp n, (turns_left score opp <= 0)%nat ->
       exists p, probability_of_winning_by_rolling_n_at (3 * 0 + 2) score opp n
                 = Some p).
    { intros score opp n Hm. apply rolling_at_returns.
      intros s' o' Hlt. apply turn_end_at_decided.
      unfold turns_left in Hm. lia. }
    split; [exact Hroll | now apply Hstep].
  - assert (Hroll : forall score opp n, (turns_left score opp <= S m)%nat ->
       exists p, probability_of_winning_by_rolling_n_at (3 * S m + 2) score opp n
                 = Some p).
    { intros score opp n Hm.
      replace (3 * S m + 2)%nat with (S (3 * m + 4)) by lia.
      apply rolling_at_returns.
      intros s' o' Hlt. apply IHv. unfold turns_left in *. lia. }
    split; [exact Hroll | now apply Hstep].
Qed.

(** The three functions return on every pair of integer scores. *)
Lemma rolling_returns (score opp n : Z) :
  exists p, probability_of_winning_by_rolling_n score opp n = Some p.
Proof. now apply (engine_returns (turns_left score opp)). Qed.

Lemma best_returns (score opp : Z) :
  exists b, best_num_dice_to_roll score opp = Some b.
Proof. now apply (engine_returns (turns_left score opp)). Qed.

Lemma turn_end_returns (score opp : Z) :
  exists v, probability_of_winning_with_turn_end_scores score opp = Some v.
Proof. now apply (engine_returns (turns_left score opp)). Qed.

(** Any depth at which a call returns gives the result of the function. *)
Lemma rolling_at_stable (fuel : nat) (score opp n : Z) (p : R) :
  probability_of_winning_by_rolling_n_at fuel score opp n = Some p ->
  probability_of_winning_by_rolling_n score opp n = Some p.
Proof.
  intros E. destruct (rolling_returns score opp n) as [p' E'].
  rewrite E'. f_equal.
  pose proof (rolling_at_mono _ (Nat.max fuel (3 * turns_left score opp + 2))
                _ _ _ _ (Nat.le_max_l _ _) E) as H1.
  pose proof (rolling_at_mono _ (Nat.max fuel (3 * turns_left score opp + 2))
                _ _ _ _ (Nat.le_max_r _ _) E') as H2.
  congruence.
Qed.

Lemma best_at_stable (fuel : nat) (score opp b : Z) :
  best_num_dice_to_roll_at fuel score opp = Some b ->
  best_num_dice_to_roll score opp = Some b.
Proof.
  intros E. destruct (best_returns score opp) as [b' E'].
  rewrite E'. f_equal.
  pose proof (best_at_mono _ (Nat.max fuel (3 * turns_left score opp + 3))
                _ _ _ (Nat.le_max_l _ _) E) as H1.
  pose proof (best_at_mono _ (Nat.max fuel (3 * turns_left score opp + 3))
                _ _ _ (Nat.le_max_r _ _) E') as H2.
  congruence.
Qed.

Lemma turn_end_at_stable (fuel : nat) (score opp : Z) (v : R) :
  probability_of_winning_with_turn_end_scores_at fuel score opp = Some v ->
  probability_of_winning_with_turn_end_scores score opp = Some v.
Proof.
  intros E. destruct (turn_end_returns score opp) as [v' E'].
  rewrite E'. f_equal.
  pose proof (turn_end_at_mono _ (Nat.max fuel (3 * turns_left score opp + 4))
                _ _ _ (Nat.le_max_l _ _) E) as H1.
  pose proof (turn_end_at_mono _ (Nat.max fuel (3 * turns_left score opp + 4))
                _ _ _ (Nat.le_max_r _ _) E') as H2.
  congruence.
Qed.

End Termination.

(** ** The equations of the three functions *)

Section Equations.

Context {R : Type} {ops : NumOps R}.

Lemma best_num_dice_to_roll_eq (score opp : Z) :
  best_num_dice_to_roll score opp =
  (r <- for_upto 0 MAX_DICE_ROLLS
          (scan_step (probability_of_winning_by_rolling_n score opp))
          (of_int 0, 1) ;;
   Some (snd r)).
Proof.
  unfold best_num_dice_to_roll.
  replace (3 * turns_left score opp + 3)%nat
    with (S (3 * turns_left score opp + 2)) by lia.
  reflexivity.
Qed.

Lemma probability_of_winning_by_rolling_n_eq (score opp n : Z) :
  probability_of_winning_by_rolling_n score opp n =
  if n =? 0 then
    probability_of_winning_with_turn_end_scores
      (score + free_bacon opp) opp
  else
    for_upto 1 (hog_wild_sides score opp * n)
      (sum_step probability_of_winning_with_turn_end_scores
         score opp n (hog_wild_sides score opp))
      (of_int 0).
Proof.
  destruct (rolling_returns score opp n) as [p E]. rewrite E. symmetry.
  unfold probability_of_winning_by_rolling_n in E.
  replace (3 * turns_left score opp + 2)%nat
    with (S (3 * turns_left score opp + 1)) in E by lia.
  rewrite rolling_at_S in E.
  destruct (n =? 0).
  - now apply turn_end_at_stable in E.
  - unfold for_upto in *. revert E. apply while_upto_mono.
    intros i a b _. apply sum_step_mono.
    intros s o v. apply turn_end_at_stable.
Qed.

Lemma probability_of_winning_with_turn_end_scores_eq (score opp : Z) :
  probability_of_winning_with_turn_end_scores score opp =
  let (score', opp') := swine_swap score opp in
  if score' >=? GOAL_SCORE then Some (of_int 1)
  else if opp' >=? GOAL_SCORE then Some (of_int 0)
  else
    opponent_num_rolls <- best_num_dice_to_roll opp' score' ;;
    probability_of_opponent_winning <-
      probability_of_winning_by_rolling_n opp' score' opponent_num_rolls ;;
    Some (sub (of_int 1) probability_of_opponent_winning).
Proof.
  destruct (turn_end_returns score opp) as [v E]. rewrite E. symmetry.
  unfold probability_of_winning_with_turn_end_scores in E.
  replace (3 * turns_left score opp + 4)%nat
    with (S (3 * turns_left score opp + 3)) in E by lia.
  rewrite turn_end_at_S in E.
  destruct (swine_swap score opp) as [s' o'].
  destruct (s' >=? GOAL_SCORE); [trivial|].
  destruct (o' >=? GOAL_SCORE); [trivial|].
  destruct (best_num_dice_to_roll_at _ o' s') as [b|] eqn:Eb; [|discriminate].
  rewrite (best_at_stable _ _ _ _ Eb). simpl in *.
  destruct (probability_of_winning_by_rolling_n_at _ o' s' b) as [p|] eqn:Ep;
    [|discriminate].
  now rewrite (rolling_at_stable _ _ _ _ _ Ep).
Qed.

(** The turn-end states a turn from [(score, opp)] asks the value of: the
    free-bacon state, and one state per outcome of one to ten dice. *)
Inductive turn_call (score opp : Z) : Z -> Z -> Prop :=
| call_free_bacon :
    turn_call score opp (score + free_bacon opp) opp
| call_roll (n possible_score : Z) :
    1 <= n <= MAX_DICE_ROLLS ->
    1 <= possible_score <= hog_wild_sides score opp * n ->
    turn_call score opp (score + possible_score) opp.

End Equations.

(** ** The claims on the structure of the engine *)

Section EngineClaims.

Context {R : Type} {ops : NumOps R}.

(** C1. The state-value function first swaps the two scores when one is
    the double of the other, then returns 1 when the (swapped) score has
    reached the goal, 0 when the (swapped) opponent score has, and otherwise
    1 minus the win probability of the opponent, who moves with the best roll
    count for the state seen from the other side; it returns on every state,
    and its values at (100, 0) and (0, 100) are 1 and 0. *)
Theorem state_value_equation :
  (forall score opp,
      swine_swap score opp =
      if (score * 2 =? opp) || (opp * 2 =? score)
      then (opp, score) else (score, opp)) /\
  (forall score opp,
      probability_of_winning_with_turn_end_scores score opp =
      let (score', opp') := swine_swap score opp in
      if score' >=? 100 then Some (of_int 1)
      else if opp' >=? 100 then Some (of_int 0)
      else
        bestN <- best_num_dice_to_roll opp' score' ;;
        p <- probability_of_winning_by_rolling_n opp' score' bestN ;;
        Some (sub (of_int 1) p)) /\
  (forall score opp,
      exists v, probability_of_winning_with_turn_end_scores score opp = Some v) /\
  probability_of_winning_with_turn_end_scores 100 0 = Some (of_int 1) /\
  probability_of_winning_with_turn_end_scores 0 100 = Some (of_int 0).
Proof.
  split; [reflexivity|].
  split; [apply probability_of_winning_with_turn_end_scores_eq|].
  split; [apply turn_end_returns|].
  split; rewrite probability_of_winning_with_turn_end_scores_eq; reflexivity.
Qed.

(** C2. The turn-value function computes the free-bacon score
    max(opp mod 10, opp div 10) + 1 and four sides when the sum of the
    scores is a multiple of 7, six otherwise; with no dice it returns the
    state value after the free-bacon score, and otherwise the sum, taken from
    0 in the order possible_score = 1 .. sides * n, of the probability of the
    score times the state value after it.  It returns on every state. *)
Theorem turn_value_equation (score opp n : Z) :
  free_bacon opp = Z.max (opp mod 10) (opp / 10) + 1 /\
  hog_wild_sides score opp = (if (score + opp) mod 7 =? 0 then 4 else 6) /\
  probability_of_winning_by_rolling_n score opp n =
    (if n =? 0 then
       probability_of_winning_with_turn_end_scores (score + free_bacon opp) opp
     else
       for_upto 1 (hog_wild_sides score opp * n)
         (fun possible_score win_probability =>
            p <- probability_of_scoring possible_score n
                   (hog_wild_sides score opp) ;;
            v <- probability_of_winning_with_turn_end_scores
                   (score + possible_score) opp ;;
            Some (add win_probability (mul p v)))
         (of_int 0)) /\
  exists p, probability_of_winning_by_rolling_n score opp n = Some p.
Proof.
  split; [reflexivity|]. split; [reflexivity|].
  split; [apply probability_of_winning_by_rolling_n_eq | apply rolling_returns].
Qed.

(** C10. The swap runs before the two terminal checks: a mover who ends
    the turn at exactly 100 against 50 is swapped to (50, 100), and the
    state value is 0. *)
Theorem state_value_100_50 :
  swine_swap 100 50 = (50, 100) /\
  probability_of_winning_with_turn_end_scores 100 50 = Some (of_int 0).
Proof.
  split; [reflexivity|].
  rewrite probability_of_winning_with_turn_end_scores_eq. reflexivity.
Qed.

(** C4. From every state with both scores in 0..99 the three mutually
    recursive functions return: a turn only asks for the value of states in
    which the mover's score is larger by one point at least (free bacon is
    worth at least 1, every outcome of the dice at least 1) and the
    opponent's is unchanged, the swap keeps the sum of the scores, a sum of
    199 forces a score of 100, and so a chain of at most 601 nested calls
    reaches a terminal state; any larger bound on the depth gives the same
    results. *)
Theorem engine_terminates (score opp : Z) :
  0 <= score <= 99 -> 0 <= opp <= 99 ->
  (exists b, best_num_dice_to_roll score opp = Some b) /\
  (forall n, exists p, probability_of_winning_by_rolling_n score opp n = Some p) /\
  (exists v, probability_of_winning_with_turn_end_scores score opp = Some v) /\
  1 <= free_bacon opp /\
  (forall s' o', turn_call score opp s' o' -> score + 1 <= s' /\ o' = opp) /\
  (forall fuel, (601 <= fuel)%nat ->
     best_num_dice_to_roll_at fuel score opp = best_num_dice_to_roll score opp /\
     (forall n, probability_of_winning_by_rolling_n_at fuel score opp n
                = probability_of_winning_by_rolling_n score opp n) /\
     probability_of_winning_with_turn_end_scores_at fuel score opp
     = probability_of_winning_with_turn_end_scores score opp).
Proof.
  intros Hs Ho.
  assert (Hm : (turns_left score opp <= 199)%nat) by (unfold turns_left; lia).
  split; [apply best_returns|].
  split; [apply rolling_returns|].
  split; [apply turn_end_returns|].
  split; [apply free_bacon_pos|].
  split.
  { intros s' o' [|n k Hn Hk]; (split; [|reflexivity]).
    - pose proof (free_bacon_pos opp). lia.
    - lia. }
  intros fuel Hfuel. repeat split.
  - destruct (best_returns score opp) as [b E]. rewrite E.
    revert E. apply best_at_mono. lia.
  - intros n. destruct (rolling_returns score opp n) as [p E]. rewrite E.
    revert E. apply rolling_at_mono. lia.
  - destruct (turn_end_returns score opp) as [v E]. rewrite E.
    revert E. apply turn_end_at_mono. lia.
Qed.

End EngineClaims.

Lemma engine_terminates_witness :
  (exists b, @best_num_dice_to_roll Q QOps 98 97 = Some b) /\
  (exists v, @probability_of_winning_with_turn_end_scores Q QOps 98 97 = Some v).
Proof.
  destruct (@engine_terminates Q QOps 98 97 ltac:(lia) ltac:(lia))
    as (Hb & _ & Hv & _).
  split; [exact Hb | exact Hv].
Defined.

(** ** The scan of the optimal-move selector *)

(** What the scan needs of the comparison [>]: a strict order. *)
Class GtOrder (R : Type) `{NumOps R} : Prop := {
  gt_irrefl : forall x : R, gt x x = false;
  gt_trans : forall x y z : R, gt x y = true -> gt y z = true -> gt x z = true
}.

Section Selector.

Context {R : Type} {ops : NumOps R} {ord : GtOrder R}.

Variables score opp : Z.

(** The state of the scan before the roll count [i] is tried: either no
    count has been taken yet and the pair is the initial (0, 1), or the pair
    is a count [bn] below [i] with its win probability [bp], which is above
    0, is exceeded by no count below [i], and is reached by no count below
    [bn]. *)
Definition scan_inv (i : Z) (best : R * Z) : Prop :=
  let (bp, bn) := best in
  (bp = of_int 0 /\ bn = 1 /\
   forall n p, 0 <= n < i ->
     probability_of_winning_by_rolling_n score opp n = Some p ->
     gt p (of_int 0) = false)
  \/
  (0 <= bn < i /\
   probability_of_winning_by_rolling_n score opp bn = Some bp /\
   gt bp (of_int 0) = true /\
   (forall n p, 0 <= n < i ->
      probability_of_winning_by_rolling_n score opp n = Some p ->
      gt p bp = false) /\
   (forall n, 0 <= n < bn ->
      probability_of_winning_by_rolling_n score opp n <> Some bp)).

Lemma gt_false_of_gt (x y z : R) :
  gt x z = false -> gt y z = true -> gt x y = false.
Proof.
  intros Hxz Hyz. destruct (gt x y) eqn:E; [|reflexivity].
  rewrite (gt_trans x y z E Hyz) in Hxz. discriminate.
Qed.

Lemma scan_inv_step (i : Z) (best best' : R * Z) :
  0 <= i ->
  scan_inv i best ->
  scan_step (probability_of_winning_by_rolling_n score opp) i best = Some best' ->
  scan_inv (i + 1) best'.
Proof.
  intros Hi Hinv. destruct best as [bp bn]. unfold scan_step.
  destruct (probability_of_winning_by_rolling_n score opp i) as [c|] eqn:Ec;
    [|discriminate].
  simpl. destruct (gt c bp) eqn:Egt; intros [= <-].
  - (* the count [i] replaces the best so far *)
    right. split; [lia|]. split; [exact Ec|].
    destruct Hinv as [(-> & -> & Hnone) | (Hbn & Ebn & Hpos & Hmax & Hfirst)].
    + split; [exact Egt|]. split.
      * intros n p Hn Ep. destruct (Z.eq_dec n i) as [->|Hne].
        -- rewrite Ec in Ep. injection Ep as <-. apply gt_irrefl.
        -- apply (gt_false_of_gt p c (of_int 0)); [|exact Egt].
           apply (Hnone n); [lia | exact Ep].
      * intros n Hn Ep.
        rewrite (Hnone n c) in Egt; [discriminate | lia | exact Ep].
    + split; [exact (gt_trans _ _ _ Egt Hpos)|]. split.
      * intros n p Hn Ep. destruct (Z.eq_dec n i) as [->|Hne].
        -- rewrite Ec in Ep. injection Ep as <-. apply gt_irrefl.
        -- apply (gt_false_of_gt p c bp); [|exact Egt].
           apply (Hmax n); [lia | exact Ep].
      * intros n Hn Ep.
        rewrite (Hmax n c) in Egt; [discriminate | lia | exact Ep].
  - (* the best so far stays *)
    destruct Hinv as [(-> & -> & Hnone) | (Hbn & Ebn & Hpos & Hmax & Hfirst)].
    + left. repeat split; trivial.
      intros n p Hn Ep. destruct (Z.eq_dec n i) as [->|Hne].
      * rewrite Ec in Ep. injection Ep as <-. exact Egt.
      * apply (Hnone n); [lia | exact Ep].
    + right. split; [lia|]. split; [exact Ebn|]. split; [exact Hpos|].
      split; [|exact Hfirst].
      intros n p Hn Ep. destruct (Z.eq_dec n i) as [->|Hne].
      * rewrite Ec in Ep. injection Ep as <-. exact Egt.
      * apply (Hmax n); [lia | exact Ep].
Qed.

Lemma scan_inv_final :
  exists best,
    for_upto 0 MAX_DICE_ROLLS
      (scan_step (probability_of_winning_by_rolling_n score opp)) (of_int 0, 1)
    = Some best /\
    best_num_dice_to_roll score opp = Some (snd best) /\
    scan_inv 11 best.
Proof.
  destruct (best_returns score opp) as [b Eb].
  rewrite best_num_dice_to_roll_eq in Eb.
  destruct (for_upto 0 MAX_DICE_ROLLS _ _) as [best|] eqn:E; [|discriminate].
  exists best. split; [reflexivity|].
  split; [rewrite best_num_dice_to_roll_eq, E; reflexivity|].
  unfold for_upto in E.
  change 11 with (0 + Z.of_nat (Z.to_nat (MAX_DICE_ROLLS - 0 + 1))).
  refine (proj2 (while_upto_inv (fun i a => 0 <= i /\ scan_inv i a)
                   _ 0 _ _ best _ _ E)).
  - intros i a a' Hi [Hi0 Hinv] Estep. split; [lia|].
    now apply (scan_inv_step i a a').
  - split; [lia|]. left. repeat split. intros n p Hn. lia.
Qed.

End Selector.

(** The comparison of rationals is a strict order. *)
#[export] Instance QOrder : GtOrder Q.
Proof.
  split.
  - intros x. simpl.
    now rewrite (proj1 (Qeq_alt x x) (Qeq_refl x)).
  - intros x y z. simpl.
    destruct (y ?= x)%Q eqn:Eyx; try discriminate.
    destruct (z ?= y)%Q eqn:Ezy; try discriminate.
    intros _ _.
    apply Qlt_alt in Eyx, Ezy.
    now rewrite (proj1 (Qlt_alt z x) (Qlt_trans _ _ _ Ezy Eyx)).
Qed.

(** The comparison of binary64 numbers is a strict order as well (a NaN
    compares with nothing). *)
Lemma SFltb_irrefl (x : spec_float) : SFltb x x = false.
Proof.
  unfold SFltb, SFcompare.
  destruct x as [s|s| |s m e]; try reflexivity.
  - now destruct s.
  - rewrite Z.compare_refl, Pos.compare_cont_refl. now destruct s.
Qed.

Lemma SFltb_finite (s1 s2 : bool) (m1 m2 : positive) (e1 e2 : Z) :
  SFltb (S754_finite s1 m1 e1) (S754_finite s2 m2 e2) = true <->
  match s1, s2 with
  | true, false => True
  | false, true => False
  | false, false => e1 < e2 \/ (e1 = e2 /\ (m1 < m2)%positive)
  | true, true => e2 < e1 \/ (e1 = e2 /\ (m2 < m1)%positive)
  end.
Proof.
  unfold SFltb, SFcompare.
  change (Pos.compare_cont Eq m1 m2) with (m1 ?= m2)%positive.
  destruct s1, s2; try (split; [easy | easy]);
    destruct (Z.compare_spec e1 e2); destruct (Pos.compare_spec m1 m2);
    simpl; split; try discriminate; try (intros _; lia); try (intros; lia);
    try reflexivity.
Qed.

Lemma SFltb_trans (x y z : spec_float) :
  SFltb x y = true -> SFltb y z = true -> SFltb x z = true.
Proof.
  destruct x as [sx|sx| |sx mx ex], y as [sy|sy| |sy my ey],
           z as [sz|sz| |sz mz ez];
    try (rewrite !SFltb_finite; destruct sx, sy, sz; intros; (lia || tauto));
    unfold SFltb, SFcompare;
    repeat match goal with s : bool |- _ => destruct s end;
    try discriminate; try reflexivity.
Qed.

#[export] Instance F64Order : GtOrder spec_float.
Proof.
  split.
  - intros x. apply SFltb_irrefl.
  - intros x y z Hxy Hyz. simpl in *. unfold F64.gtb in *.
    exact (SFltb_trans z y x Hyz Hxy).
Qed.

Section SelectorClaim.

Context {R : Type} {ops : NumOps R} {ord : GtOrder R}.

(** C3. The optimal-move selector returns, on every state, a roll count
    in 0..10.  It scans the counts 0, 1, .., 10 in this order from the pair
    (probability 0, count 1) and replaces the pair only when the win
    probability of the count is strictly greater than the best so far.  So
    when no count has a probability above 0 the result is the initial count
    1; and otherwise the result is a count whose probability no count
    exceeds, and the smallest of the counts with that probability. *)
Theorem best_roll_count_scan (score opp : Z) :
  best_num_dice_to_roll score opp =
    (r <- for_upto 0 10
            (fun n (best : R * Z) =>
               let (best_probability, best_n) := best in
               p <- probability_of_winning_by_rolling_n score opp n ;;
               if gt p best_probability then Some (p, n)
               else Some (best_probability, best_n))
            (of_int 0, 1) ;;
     Some (snd r)) /\
  exists b,
    best_num_dice_to_roll score opp = Some b /\
    0 <= b <= 10 /\
    ((forall n p, 0 <= n <= 10 ->
        probability_of_winning_by_rolling_n score opp n = Some p ->
        gt p (of_int 0) = false) ->
     b = 1) /\
    ((exists n p, 0 <= n <= 10 /\
        probability_of_winning_by_rolling_n score opp n = Some p /\
        gt p (of_int 0) = true) ->
     exists pb,
       probability_of_winning_by_rolling_n score opp b = Some pb /\
       gt pb (of_int 0) = true /\
       (forall n p, 0 <= n <= 10 ->
          probability_of_winning_by_rolling_n score opp n = Some p ->
          gt p pb = false) /\
       (forall n, 0 <= n <= 10 ->
          probability_of_winning_by_rolling_n score opp n = Some pb ->
          b <= n)).
Proof.
  split; [apply best_num_dice_to_roll_eq|].
  destruct (scan_inv_final score opp) as ([bp bn] & _ & Ebest & Hinv).
  exists bn. split; [exact Ebest|].
  destruct Hinv as [(-> & -> & Hnone) | (Hbn & Ebn & Hpos & Hmax & Hfirst)].
  - split; [lia|]. split; [reflexivity|].
    intros (n & p & Hn & Ep & Hgt).
    rewrite (Hnone n p) in Hgt; [discriminate | lia | exact Ep].
  - split; [lia|]. split.
    + intros Hnone. rewrite (Hnone bn bp) in Hpos; [discriminate | lia | exact Ebn].
    + intros _. exists bp. split; [exact Ebn|]. split; [exact Hpos|]. split.
      * intros n p Hn. apply Hmax. lia.
      * intros n Hn Ep. destruct (Z.lt_ge_cases n bn) as [Hlt|]; [|lia].
        elim (Hfirst n); [lia | exact Ep].
Qed.

End SelectorClaim.

Lemma best_roll_count_scan_witness :
  exists b, @best_num_dice_to_roll Q QOps 98 97 = Some b /\ 0 <= b <= 10.
Proof.
  destruct (@best_roll_count_scan Q QOps QOrder 98 97) as (_ & b & Eb & Hb & _).
  exists b. split; [exact Eb | exact Hb].
Defined.

(** ** Sums over a range of integers *)

Lemma Zsum_ext (cnt : nat) :
  forall lo (f g : Z -> Z),
    (forall i, lo <= i < lo + Z.of_nat cnt -> f i = g i) ->
    Zsum cnt lo f = Zsum cnt lo g.
Proof.
  induction cnt as [|cnt IH]; intros lo f g Hext; simpl; [reflexivity|].
  rewrite (Hext lo) by lia. f_equal. apply IH. intros i Hi. apply Hext. lia.
Qed.

Lemma Zsum_zero (cnt : nat) (lo : Z) (f : Z -> Z) :
  (forall i, lo <= i < lo + Z.of_nat cnt -> f i = 0) -> Zsum cnt lo f = 0.
Proof.
  revert lo. induction cnt as [|cnt IH]; intros lo Hz; simpl; [reflexivity|].
  rewrite (Hz lo) by lia. rewrite IH; [reflexivity|].
  intros i Hi. apply Hz. lia.
Qed.

Lemma Zsum_plus (cnt : nat) :
  forall lo (f g : Z -> Z),
    Zsum cnt lo (fun i => f i + g i) = Zsum cnt lo f + Zsum cnt lo g.
Proof.
  induction cnt as [|cnt IH]; intros lo f g; simpl; [reflexivity|].
  rewrite IH. lia.
Qed.

Lemma Zsum_const (cnt : nat) (lo a : Z) :
  Zsum cnt lo (fun _ => a) = Z.of_nat cnt * a.
Proof.
  revert lo. induction cnt as [|cnt IH]; intros lo; [reflexivity|].
  cbn [Zsum]. rewrite IH. lia.
Qed.

Lemma Zsum_shift (cnt : nat) (d : Z) (f : Z -> Z) :
  forall lo, Zsum cnt lo (fun k => f (k - d)) = Zsum cnt (lo - d) f.
Proof.
  induction cnt as [|cnt IH]; intros lo; simpl; [reflexivity|].
  rewrite IH. do 2 f_equal. lia.
Qed.

Lemma Zsum_swap (c1 : nat) (c2 : nat) (l2 : Z) (f : Z -> Z -> Z) :
  forall l1,
    Zsum c1 l1 (fun i => Zsum c2 l2 (fun j => f i j)) =
    Zsum c2 l2 (fun j => Zsum c1 l1 (fun i => f i j)).
Proof.
  induction c1 as [|c1 IH]; intros l1; simpl.
  - symmetry. now apply Zsum_zero.
  - rewrite IH. symmetry. apply Zsum_plus.
Qed.

Lemma Zsum_split (c1 c2 : nat) (f : Z -> Z) :
  forall lo, Zsum (c1 + c2) lo f = Zsum c1 lo f + Zsum c2 (lo + Z.of_nat c1) f.
Proof.
  induction c1 as [|c1 IH]; intros lo.
  - simpl. now rewrite Z.add_0_r.
  - cbn [Nat.add Zsum]. rewrite IH.
    replace (lo + 1 + Z.of_nat c1) with (lo + Z.of_nat (S c1)) by lia. lia.
Qed.

(** The sum of the indicator of [k = 0] over a range that holds 0. *)
Lemma Zsum_indicator (cnt : nat) :
  forall lo, lo <= 0 < lo + Z.of_nat cnt ->
    Zsum cnt lo (fun k => if k =? 0 then 1 else 0) = 1.
Proof.
  induction cnt as [|cnt IH]; intros lo Hlo; [lia|].
  cbn [Zsum]. destruct (Z.eqb_spec lo 0) as [->|Hne].
  - rewrite Zsum_zero; [reflexivity|].
    intros i Hi. destruct (Z.eqb_spec i 0); [lia | reflexivity].
  - rewrite IH by lia. reflexivity.
Qed.

(** ** What the combinatorics engine counts *)

(** The [cnt] integers from [lo] on. *)
Fixpoint Zrange (lo : Z) (cnt : nat) : list Z :=
  match cnt with
  | O => []
  | S cnt' => lo :: Zrange (lo + 1) cnt'
  end.

(** The faces of a die that do not pig out: 2, .., s. *)
Definition faces (s : Z) : list Z := Zrange 2 (Z.to_nat (s - 1)).

(** All sequences of [n] elements of [fs], in order. *)
Fixpoint sequences (n : nat) (fs : list Z) : list (list Z) :=
  match n with
  | O => [[]]
  | S n' => flat_map (fun d => map (cons d) (sequences n' fs)) fs
  end.

Definition total (l : list Z) : Z := fold_right Z.add 0 l.

(** The number of sequences of [n] faces in 2..s whose sum is [k]. *)
Definition count_sequences (k : Z) (n : nat) (s : Z) : Z :=
  Z.of_nat (length (filter (fun l => total l =? k) (sequences n (faces s)))).

Lemma in_Zrange (cnt : nat) :
  forall lo d, In d (Zrange lo cnt) <-> lo <= d < lo + Z.of_nat cnt.
Proof.
  induction cnt as [|cnt IH]; intros lo d; simpl.
  - lia.
  - rewrite IH. lia.
Qed.

Lemma NoDup_Zrange (cnt : nat) : forall lo, NoDup (Zrange lo cnt).
Proof.
  induction cnt as [|cnt IH]; intros lo; simpl; constructor.
  - rewrite in_Zrange. lia.
  - apply IH.
Qed.

Lemma in_faces (s d : Z) : In d (faces s) <-> 2 <= d <= s.
Proof. unfold faces. rewrite in_Zrange. lia. Qed.

Lemma in_sequences (fs : list Z) (n : nat) :
  forall l, In l (sequences n fs) <->
            length l = n /\ forall d, In d l -> In d fs.
Proof.
  induction n as [|n IH]; intros l; simpl.
  - split.
    + intros [<-|[]]. split; [reflexivity | intros d []].
    + intros [Hlen _]. left. symmetry. now apply length_zero_iff_nil.
  - rewrite in_flat_map. split.
    + intros (d & Hd & Hl). apply in_map_iff in Hl as (l' & <- & Hl').
      apply IH in Hl' as [Hlen Hall]. split; [simpl; lia|].
      intros d' [<-|Hd']; auto.
    + intros [Hlen Hall]. destruct l as [|d l']; [discriminate|].
      exists d. split; [apply Hall; now left|].
      apply in_map, IH. split; [simpl in Hlen; lia|].
      intros d' Hd'. apply Hall. now right.
Qed.

Lemma NoDup_map_cons (d : Z) (L : list (list Z)) :
  NoDup L -> NoDup (map (cons d) L).
Proof.
  induction 1 as [|l L Hl _ IH]; simpl; constructor; [|exact IH].
  intros Hin. apply in_map_iff in Hin as (l' & [= ->] & Hl'). contradiction.
Qed.

Lemma NoDup_flat_map_cons (L : list (list Z)) (fs : list Z) :
  NoDup L -> NoDup fs -> NoDup (flat_map (fun d => map (cons d) L) fs).
Proof.
  intros HL. induction 1 as [|d fs' Hd _ IHfs]; simpl; [constructor|].
  apply NoDup_app.
  - now apply NoDup_map_cons.
  - exact IHfs.
  - intros l Hl Hl'. apply in_map_iff in Hl as (l1 & <- & _).
    apply in_flat_map in Hl' as (d' & Hd' & Hl').
    apply in_map_iff in Hl' as (l2 & [= -> ->] & _). contradiction.
Qed.

Lemma NoDup_sequences (fs : list Z) (n : nat) :
  NoDup fs -> NoDup (sequences n fs).
Proof.
  intros Hfs. induction n as [|n IH]; simpl.
  - constructor; [intros [] | constructor].
  - now apply NoDup_flat_map_cons.
Qed.

Lemma Zsum_Zrange (f : Z -> Z) (cnt : nat) :
  forall lo, Zsum cnt lo f = fold_right Z.add 0 (map f (Zrange lo cnt)).
Proof.
  induction cnt as [|cnt IH]; intros lo; simpl; [reflexivity|].
  now rewrite IH.
Qed.

Lemma count_flat_map (P : list Z -> bool) (g : Z -> list (list Z)) (fs : list Z) :
  Z.of_nat (length (filter P (flat_map g fs))) =
  fold_right Z.add 0 (map (fun d => Z.of_nat (length (filter P (g d)))) fs).
Proof.
  induction fs as [|d fs IH]; simpl; [reflexivity|].
  rewrite filter_app, length_app, Nat2Z.inj_add, IH. reflexivity.
Qed.

Lemma count_map_cons (k d : Z) (L : list (list Z)) :
  length (filter (fun l => total l =? k) (map (cons d) L)) =
  length (filter (fun l => total l =? k - d) L).
Proof.
  induction L as [|l L IH]; simpl; [reflexivity|].
  replace (d + total l =? k) with (total l =? k - d)
    by (destruct (Z.eqb_spec (total l) (k - d)), (Z.eqb_spec (d + total l) k); lia).
  destruct (total l =? k - d); simpl; now rewrite IH.
Qed.

(** The recursion counts the sequences of faces. *)
Lemma ways_count_sequences (s : Z) (m : nat) :
  forall k, ways m k s = count_sequences k m s.
Proof.
  induction m as [|m IH]; intros k.
  - unfold count_sequences. cbn [ways sequences filter total fold_right].
    rewrite (Z.eqb_sym 0 k). now destruct (k =? 0).
  - unfold count_sequences. cbn [ways sequences].
    rewrite count_flat_map, Zsum_Zrange. unfold faces.
    f_equal. apply map_ext. intros d.
    rewrite count_map_cons. apply IH.
Qed.

(** [m] faces in 2..s sum to a score between [2 m] and [s m]. *)
Lemma ways_outside (s : Z) (m : nat) :
  forall k, k < 2 * Z.of_nat m \/ s * Z.of_nat m < k -> ways m k s = 0.
Proof.
  induction m as [|m IH]; intros k Hk.
  - simpl. destruct (Z.eqb_spec k 0); [lia | reflexivity].
  - cbn [ways]. apply Zsum_zero. intros d Hd. apply IH. nia.
Qed.

(** Over any range of scores that holds [2 m .. s m], the counts add up to
    the number [(s - 1) ^ m] of sequences of [m] faces. *)
Lemma ways_total (s : Z) (m : nat) :
  1 <= s ->
  forall cnt lo,
    lo <= 2 * Z.of_nat m -> s * Z.of_nat m < lo + Z.of_nat cnt ->
    Zsum cnt lo (fun k => ways m k s) = (s - 1) ^ Z.of_nat m.
Proof.
  intros Hs. induction m as [|m IH]; intros cnt lo Hlo Hhi.
  - cbn [ways]. rewrite Zsum_indicator by lia. reflexivity.
  - cbn [ways]. rewrite Zsum_swap.
    rewrite (Zsum_ext _ _ _ (fun _ => (s - 1) ^ Z.of_nat m)).
    + rewrite Zsum_const, Nat2Z.inj_succ, Z.pow_succ_r by lia.
      rewrite Z2Nat.id by lia. reflexivity.
    + intros d Hd. rewrite (Zsum_shift cnt d (fun k => ways m k s)).
      apply IH; nia.
Qed.

(** *** A table of the counts, row by row *)

Definition row_get (r : list Z) (k : Z) : Z :=
  if k <? 0 then 0 else nth (Z.to_nat k) r 0.

Definition next_row (s : Z) (r : list Z) : list Z :=
  map (fun k => Zsum (Z.to_nat (s - 1)) 2 (fun d => row_get r (k - d)))
      (Zrange 0 (length r + Z.to_nat s)).

Fixpoint ways_row (m : nat) (s : Z) : list Z :=
  match m with
  | O => [1]
  | S m' => next_row s (ways_row m' s)
  end.

Lemma length_Zrange (cnt : nat) : forall lo, length (Zrange lo cnt) = cnt.
Proof. induction cnt as [|cnt IH]; intros lo; simpl; [|rewrite IH]; reflexivity. Qed.

Lemma nth_Zrange (cnt : nat) :
  forall lo i, (i < cnt)%nat -> nth i (Zrange lo cnt) 0 = lo + Z.of_nat i.
Proof.
  induction cnt as [|cnt IH]; intros lo i Hi; [lia|].
  destruct i as [|i]; simpl; [lia|]. rewrite IH by lia. lia.
Qed.

Lemma row_get_map (f : Z -> Z) (cnt : nat) (k : Z) :
  row_get (map f (Zrange 0 cnt)) k =
  if (0 <=? k) && (k <? Z.of_nat cnt) then f k else 0.
Proof.
  unfold row_get. destruct (Z.ltb_spec k 0) as [Hneg|Hpos].
  - destruct (Z.leb_spec 0 k); [lia | reflexivity].
  - destruct (Z.leb_spec 0 k); [|lia]. simpl.
    destruct (Z.ltb_spec k (Z.of_nat cnt)) as [Hin|Hout].
    + rewrite (nth_indep _ 0 (f 0)) by (rewrite length_map, length_Zrange; lia).
      rewrite map_nth, nth_Zrange by lia. f_equal. lia.
    + apply nth_overflow. rewrite length_map, length_Zrange. lia.
Qed.

Lemma row_get_overflow (r : list Z) (k : Z) :
  Z.of_nat (length r) <= k -> row_get r k = 0.
Proof.
  intros Hk. unfold row_get. destruct (k <? 0); [reflexivity|].
  apply nth_overflow. lia.
Qed.

Lemma ways_row_get (s : Z) (m : nat) :
  forall k, row_get (ways_row m s) k = ways m k s.
Proof.
  induction m as [|m IH]; intros k.
  - unfold row_get. simpl.
    destruct (Z.ltb_spec k 0); destruct (Z.eqb_spec k 0); try lia; subst;
      try reflexivity.
    destruct (Z.to_nat k) as [|[|i]] eqn:E; [lia | reflexivity | reflexivity].
  - cbn [ways_row ways]. unfold next_row. rewrite row_get_map.
    destruct (Z.leb_spec 0 k); simpl.
    + destruct (Z.ltb_spec k (Z.of_nat (length (ways_row m s) + Z.to_nat s))).
      * apply Zsum_ext. intros d _. apply IH.
      * symmetry. apply Zsum_zero. intros d Hd.
        rewrite <- IH. apply row_get_overflow. lia.
    + symmetry. apply Zsum_zero. intros d Hd.
      apply ways_outside. lia.
Qed.

Lemma number_of_ways_to_score_row (k n s : Z) :
  0 <= n ->
  number_of_ways_to_score k n s = Some (row_get (ways_row (Z.to_nat n) s) k).
Proof.
  intros Hn. rewrite ways_row_get. now apply number_of_ways_to_score_ways.
Qed.

(** C6. For [0 <= n], [number_of_ways_to_score(k, n, s)] returns the number
    of sequences of [n] faces, each in 2..s, whose sum is [k]: the sequences
    counted are exactly the lists of length [n] over 2..s, each listed once.
    With no dice it returns 1 for [k = 0] and 0 otherwise; with [n > 0] dice it
    is the sum over the faces d = 2..s of the count for [k - d] with [n - 1]
    dice; a negative [k] gives 0, with no guard for it.  There are 4 ways to
    score 7 with two six-sided dice, and so the probability of scoring 7 with
    them is 1/9 (in exact arithmetic, and in binary64 the double nearest to
    1/9). *)
Theorem ways_to_score_counts (k n s : Z) :
  0 <= n ->
  number_of_ways_to_score k n s = Some (count_sequences k (Z.to_nat n) s) /\
  (forall l, In l (sequences (Z.to_nat n) (faces s)) <->
             Z.of_nat (length l) = n /\ forall d, In d l -> 2 <= d <= s) /\
  NoDup (sequences (Z.to_nat n) (faces s)) /\
  number_of_ways_to_score k 0 s = Some (if k =? 0 then 1 else 0) /\
  (0 < n ->
   exists w : Z -> Z,
     (forall d, number_of_ways_to_score (k - d) (n - 1) s = Some (w d)) /\
     number_of_ways_to_score k n s = Some (Zsum (Z.to_nat (s - 1)) 2 w)) /\
  (k < 0 -> number_of_ways_to_score k n s = Some 0) /\
  number_of_ways_to_score 7 2 6 = Some 4 /\
  @probability_of_scoring Q QOps 7 2 6 = Some (1 # 9)%Q /\
  @probability_of_scoring spec_float F64Ops 7 2 6 = Some (F64.div_Z 1 9).
Proof.
  intros Hn.
  split. { rewrite number_of_ways_to_score_ways by trivial.
           f_equal. apply ways_count_sequences. }
  split. { intros l. rewrite in_sequences. split.
           - intros [Hlen Hall]. split; [lia|].
             intros d Hd. now apply in_faces, Hall.
           - intros [Hlen Hall]. split; [lia|].
             intros d Hd. now apply in_faces, Hall. }
  split. { apply NoDup_sequences, NoDup_Zrange. }
  split. { unfold number_of_ways_to_score.
           rewrite number_of_ways_to_score_at_S. simpl.
           now destruct (k =? 0). }
  split. { intros Hpos. exists (fun d => ways (Z.to_nat (n - 1)) (k - d) s). split.
           - intros d. apply number_of_ways_to_score_ways. lia.
           - rewrite number_of_ways_to_score_ways by trivial.
             replace (Z.to_nat n) with (S (Z.to_nat (n - 1))) by lia.
             reflexivity. }
  split. { intros Hk. rewrite number_of_ways_to_score_ways by trivial.
           f_equal. apply ways_outside. lia. }
  split; [reflexivity|]. split; vm_compute; reflexivity.
Qed.

Lemma ways_to_score_counts_witness :
  number_of_ways_to_score 7 2 6 = Some (count_sequences 7 (Z.to_nat 2) 6) /\
  count_sequences 7 (Z.to_nat 2) 6 = 4.
Proof.
  split.
  - apply (ways_to_score_counts 7 2 6). lia.
  - reflexivity.
Defined.

(** ** The distribution of the score of a turn *)

Section Distribution.

Context {R : Type} {ops : NumOps R}.


(** [probability_of_scoring] with the count read from the table. *)
Definition probability_of_scoring_fast (k n s : Z) : option R :=
  if k =? 1 then
    q <- truediv ((s - 1) ^ n) (s ^ n) ;;
    Some (sub (of_int 1) q)
  else
    truediv (row_get (ways_row (Z.to_nat n) s) k) (s ^ n).

Lemma probability_of_scoring_fast_eq (k n s : Z) :
  0 <= n -> probability_of_scoring k n s = probability_of_scoring_fast k n s.
Proof.
  intros Hn. unfold probability_of_scoring, probability_of_scoring_fast.
  destruct (k =? 1); [reflexivity|].
  now rewrite number_of_ways_to_score_row.
Qed.



End Distribution.

(** The numerator of the probability of the score [k], over [s ^ n]. *)
Definition outcome_weight (k n s : Z) : Z :=
  if k =? 1 then s ^ n - (s - 1) ^ n else ways (Z.to_nat n) k s.

Lemma outcome_weight_rest (n s : Z) (cnt : nat) :
  1 <= n -> 1 <= s -> s * n < 2 + Z.of_nat cnt ->
  Zsum cnt 2 (fun k => outcome_weight k n s) = (s - 1) ^ n.
Proof.
  intros Hn Hs Hcnt.
  rewrite (Zsum_ext _ _ _ (fun k => ways (Z.to_nat n) k s)).
  - rewrite ways_total by lia. now rewrite Z2Nat.id by lia.
  - intros k Hk. unfold outcome_weight.
    destruct (Z.eqb_spec k 1); [lia | reflexivity].
Qed.

(** *** In exact arithmetic *)

Lemma inject_Z_nonzero (D : Z) : D <> 0 -> ~ (inject_Z D == 0)%Q.
Proof.
  intros HD H. apply HD. now apply (proj1 (inject_Z_injective D 0)).
Qed.


Lemma Qred_div_self (D : Z) : D <> 0 -> Qred (inject_Z D / inject_Z D) = 1%Q.
Proof.
  intros HD. change 1%Q with (Qred 1). apply Qred_complete.
  field. now apply inject_Z_nonzero.
Qed.

(** A loop that adds [w k / D] to an accumulator kept in lowest terms. *)
Lemma Q_weighted_loop (D : Z) (w : Z -> Z) (body : Z -> Q -> option Q)
    (cnt : nat) :
  forall lo A,
    (forall k B, lo <= k < lo + Z.of_nat cnt ->
       body k (Qred (inject_Z B / inject_Z D)) =
       Some (Qred (inject_Z (B + w k) / inject_Z D))) ->
    while_upto cnt lo body (Qred (inject_Z A / inject_Z D)) =
    Some (Qred (inject_Z (A + Zsum cnt lo w) / inject_Z D)).
Proof.
  induction cnt as [|cnt IH]; intros lo A Hbody; cbn [while_upto Zsum].
  - now rewrite Z.add_0_r.
  - rewrite Hbody by lia. rewrite IH.
    + now rewrite Z.add_assoc.
    + intros k B Hk. apply Hbody. lia.
Qed.

Lemma probability_of_scoring_Q (k n s : Z) :
  0 <= n -> s ^ n <> 0 ->
  @probability_of_scoring Q QOps k n s =
  Some (Qred (inject_Z (outcome_weight k n s) / inject_Z (s ^ n))).
Proof.
  intros Hn HD. unfold probability_of_scoring, truediv, outcome_weight.
  rewrite (proj2 (Z.eqb_neq _ _) HD).
  destruct (k =? 1).
  - cbn [bind sub add mul of_int int_div QOps]. f_equal.
    apply Qred_complete. rewrite Qred_correct.
    unfold Z.sub at 2. rewrite inject_Z_plus, inject_Z_opp.
    field. now apply inject_Z_nonzero.
  - rewrite number_of_ways_to_score_ways by trivial. reflexivity.
Qed.


(** A property checked on every integer of a range holds of each. *)
Lemma forallb_Zrange (P : Z -> bool) (lo : Z) (cnt : nat) :
  forallb P (Zrange lo cnt) = true ->
  forall i, lo <= i < lo + Z.of_nat cnt -> P i = true.
Proof.
  intros Hall i Hi. rewrite forallb_forall in Hall.
  apply Hall, in_Zrange, Hi.
Qed.

(** *** In binary64 *)

Module F64Facts.

(** The double written [1e-9]: the double nearest to 1/10^9. *)
Definition tolerance : spec_float := F64.div_Z 1 1000000000.

(** [|x - 1.0| <= 1e-9], computed in binary64 as a test would. *)
Definition close_to_one (o : option spec_float) : bool :=
  match o with
  | Some x =>
      SFleb (SFabs (SFsub F64.prec F64.emax x (F64.of_Z 1))) tolerance
  | None => false
  end.


End F64Facts.



(** ** The probability of a score *)

Lemma Qpower_quotient (a b n : Z) :
  0 <= n -> b <> 0 ->
  (inject_Z (a ^ n) / inject_Z (b ^ n) == (inject_Z a / inject_Z b) ^ n)%Q.
Proof.
  intros Hn Hb. unfold Qdiv.
  rewrite Qmult_power, Qinv_power, !Zpower_Qpower by trivial. reflexivity.
Qed.

Module F64Scoring.

(** The double that [probability_of_scoring(1, 1, 6)] returns,
    0.16666666666666663 = 6004799503160660 / 2^55, and the double nearest
    to 1/6, 0.16666666666666666 = 6004799503160661 / 2^55. *)
Definition returned_1_1_6 : spec_float := S754_finite false 6004799503160660 (-55).
Definition nearest_sixth : spec_float := S754_finite false 6004799503160661 (-55).

(** [|x - y| <= 1e-9] in binary64. *)
Definition close (x y : spec_float) : bool :=
  SFleb (SFabs (SFsub F64.prec F64.emax x y)) F64Facts.tolerance.

End F64Scoring.

(** C5, as the code has it.  For [1 <= n] dice with four or six sides,
    [probability_of_scoring(1, n, s)] returns [1 - (s-1)^n / s^n], the quotient
    of the two integer powers taken first, and for [k <> 1] it returns
    [number_of_ways_to_score(k, n, s) / s^n].  In rational arithmetic these are
    1 - ((s-1)/s)^n and waysToScore / s^n, and the value at (1, 1, 6) is 1/6.
    In binary64 the value at (1, 1, 6) is 1 - fl(5/6) = 0.16666666666666663,
    one unit in the last place below the double nearest to 1/6, and within
    1e-9 of it. *)
Theorem probability_of_scoring_cases (k n s : Z) :
  1 <= n -> s = 4 \/ s = 6 ->
  (forall (R : Type) (ops : NumOps R),
      @probability_of_scoring R ops 1 n s =
        Some (sub (of_int 1) (int_div ((s - 1) ^ n) (s ^ n))) /\
      (k <> 1 ->
       exists w, number_of_ways_to_score k n s = Some w /\
                 @probability_of_scoring R ops k n s = Some (int_div w (s ^ n)))) /\
  (exists q : Q,
      @probability_of_scoring Q QOps 1 n s = Some q /\
      (q == 1 - (inject_Z (s - 1) / inject_Z s) ^ n)%Q) /\
  (2 <= k ->
   exists (w : Z) (q : Q),
      number_of_ways_to_score k n s = Some w /\
      @probability_of_scoring Q QOps k n s = Some q /\
      (q == inject_Z w / inject_Z (s ^ n))%Q) /\
  @probability_of_scoring Q QOps 1 1 6 = Some (1 # 6)%Q /\
  @probability_of_scoring spec_float F64Ops 1 1 6 = Some F64Scoring.returned_1_1_6 /\
  F64Scoring.close F64Scoring.returned_1_1_6 (F64.div_Z 1 6) = true.
Proof.
  intros Hn Hs.
  assert (HD : s ^ n <> 0) by (apply Z.pow_nonzero; lia).
  assert (HDb : (s ^ n =? 0) = false) by now apply Z.eqb_neq.
  split.
  { intros R ops. split.
    - unfold probability_of_scoring, truediv. rewrite HDb. reflexivity.
    - intros Hk. exists (ways (Z.to_nat n) k s).
      split; [apply number_of_ways_to_score_ways; lia|].
      unfold probability_of_scoring, truediv.
      rewrite (proj2 (Z.eqb_neq k 1) Hk), number_of_ways_to_score_ways by lia.
      cbn [bind]. rewrite HDb. reflexivity. }
  split.
  { eexists. split.
    - unfold probability_of_scoring, truediv. rewrite HDb. reflexivity.
    - cbn [Z.eqb bind sub of_int int_div QOps].
      rewrite !Qred_correct, Qpower_quotient by lia. reflexivity. }
  split.
  { intros Hk. exists (ways (Z.to_nat n) k s). eexists.
    split; [apply number_of_ways_to_score_ways; lia|]. split.
    - unfold probability_of_scoring, truediv.
      rewrite (proj2 (Z.eqb_neq k 1) ltac:(lia)), number_of_ways_to_score_ways by lia.
      cbn [bind]. rewrite HDb. reflexivity.
    - cbn [int_div QOps]. apply Qred_correct. }
  split; [reflexivity|]. split; vm_compute; reflexivity.
Qed.

Lemma probability_of_scoring_cases_witness :
  @probability_of_scoring Q QOps 1 2 6 =
    Some (sub (of_int 1) (int_div ((6 - 1) ^ 2) (6 ^ 2))).
Proof.
  apply (probability_of_scoring_cases 7 2 6 ltac:(lia) ltac:(right; reflexivity)).
Defined.

(** The value the code returns for (1, 1, 6) is not the double 1/6: the
    comparison [probability_of_scoring(1, 1, 6) == 1/6] is false. *)
Lemma probability_of_scoring_1_1_6_inexact :
  @probability_of_scoring spec_float F64Ops 1 1 6 = Some F64Scoring.returned_1_1_6 /\
  F64.div_Z 1 6 = F64Scoring.nearest_sixth /\
  SFeqb F64Scoring.returned_1_1_6 (F64.div_Z 1 6) = false /\
  @probability_of_scoring spec_float F64Ops 1 1 6 <> Some (F64.div_Z 1 6).
Proof.
  split; [vm_compute; reflexivity|]. split; [vm_compute; reflexivity|].
  split; [vm_compute; reflexivity|]. vm_compute. discriminate.
Qed.

(** ** The state (99, 0) *)

(** From here on the three functions are used through their equations. *)
Opaque best_num_dice_to_roll probability_of_winning_by_rolling_n
       probability_of_winning_with_turn_end_scores.

Section FromNinetyNine.

Context {R : Type} {ops : NumOps R}.

(** One more point wins: every turn-end state reached from (99, 0) is
    worth 1. *)
Lemma turn_end_from_99_0 (k : Z) :
  1 <= k -> probability_of_winning_with_turn_end_scores (99 + k) 0 = Some (of_int 1).
Proof.
  intros Hk. rewrite probability_of_winning_with_turn_end_scores_eq.
  unfold swine_swap, GOAL_SCORE.
  rewrite (proj2 (Z.eqb_neq ((99 + k) * 2) 0)) by lia.
  rewrite (proj2 (Z.eqb_neq (0 * 2) (99 + k))) by lia.
  cbn [orb]. destruct (Z.geb_spec (99 + k) 100); [reflexivity | lia].
Qed.

(** The sum the turn-value function computes at (99, 0), with the counts
    read from the table. *)
Definition rolling_99_0 (n : Z) : option R :=
  if n =? 0 then Some (of_int 1)
  else
    for_upto 1 (6 * n)
      (fun possible_score win_probability =>
         p <- probability_of_scoring_fast possible_score n 6 ;;
         Some (add win_probability (mul p (of_int 1))))
      (of_int 0).

Lemma rolling_99_0_eq (n : Z) :
  probability_of_winning_by_rolling_n 99 0 n = rolling_99_0 n.
Proof.
  rewrite probability_of_winning_by_rolling_n_eq. unfold rolling_99_0.
  destruct (n =? 0).
  - change (free_bacon 0) with 1. apply turn_end_from_99_0. lia.
  - change (hog_wild_sides 99 0) with 6. unfold for_upto.
    apply while_upto_ext. intros i a Hi. unfold sum_step.
    rewrite probability_of_scoring_fast_eq by lia.
    rewrite turn_end_from_99_0 by lia. reflexivity.
Qed.

Lemma best_99_0_eq :
  best_num_dice_to_roll 99 0 =
  (r <- for_upto 0 MAX_DICE_ROLLS (scan_step rolling_99_0) (of_int 0, 1) ;;
   Some (snd r)).
Proof.
  rewrite best_num_dice_to_roll_eq. unfold for_upto.
  rewrite (while_upto_ext _ _
             (scan_step (probability_of_winning_by_rolling_n 99 0))
             (scan_step rolling_99_0)); [reflexivity|].
  intros i [bp bn] _. unfold scan_step.
  now rewrite rolling_99_0_eq.
Qed.

End FromNinetyNine.

(** In exact arithmetic every roll count wins from (99, 0) with
    probability 1. *)
Lemma rolling_99_0_Q (n : Z) :
  0 <= n -> @probability_of_winning_by_rolling_n Q QOps 99 0 n = Some 1%Q.
Proof.
  intros Hn. rewrite probability_of_winning_by_rolling_n_eq.
  destruct (Z.eqb_spec n 0) as [->|Hn0].
  - change (free_bacon 0) with 1. change (Some 1%Q) with (Some (@of_int Q QOps 1)).
    apply turn_end_from_99_0. lia.
  - change (hog_wild_sides 99 0) with 6.
    assert (HD : 6 ^ n <> 0) by (apply Z.pow_nonzero; lia).
    unfold for_upto.
    replace (@of_int Q QOps 0) with (Qred (inject_Z 0 / inject_Z (6 ^ n)))
      by (change (@of_int Q QOps 0) with (Qred 0); apply Qred_complete;
          field; now apply inject_Z_nonzero).
    rewrite (Q_weighted_loop (6 ^ n) (fun k => outcome_weight k n 6)).
    + replace (Z.to_nat (6 * n - 1 + 1)) with (S (Z.to_nat (6 * n - 1))) by lia.
      cbn [Zsum]. change (1 + 1) with 2.
      rewrite outcome_weight_rest by lia.
      unfold outcome_weight. cbn [Z.eqb Pos.eqb].
      replace (0 + (6 ^ n - (6 - 1) ^ n + (6 - 1) ^ n)) with (6 ^ n) by lia.
      now rewrite Qred_div_self.
    + intros k B Hk. unfold sum_step.
      rewrite probability_of_scoring_Q by lia.
      rewrite turn_end_from_99_0 by lia.
      cbn [bind add mul of_int QOps]. f_equal.
      apply Qred_complete. rewrite !Qred_correct, inject_Z_plus.
      field. now apply inject_Z_nonzero.
Qed.

Lemma best_99_0_Q : @best_num_dice_to_roll Q QOps 99 0 = Some 0.
Proof.
  rewrite best_num_dice_to_roll_eq. unfold for_upto.
  rewrite (while_upto_ext _ _ _ (scan_step (fun _ => Some 1%Q))).
  - vm_compute. reflexivity.
  - intros i [bp bn] Hi. unfold scan_step.
    rewrite rolling_99_0_Q by lia. reflexivity.
Qed.

Module F64From99.

(** The doubles next to 1.0 that the sums at (99, 0) round to. *)
Definition one : spec_float := F64.of_Z 1.
Definition one_minus_2ulp : spec_float := S754_finite false 9007199254740990 (-53).
Definition one_plus_ulp : spec_float := S754_finite false 4503599627370497 (-52).

Lemma rolling_values :
  @probability_of_winning_by_rolling_n spec_float F64Ops 99 0 0 = Some one /\
  @probability_of_winning_by_rolling_n spec_float F64Ops 99 0 1 = Some one_minus_2ulp /\
  @probability_of_winning_by_rolling_n spec_float F64Ops 99 0 2 = Some one_plus_ulp /\
  @probability_of_winning_by_rolling_n spec_float F64Ops 99 0 9 = Some one_plus_ulp.
Proof.
  rewrite !rolling_99_0_eq. repeat split; vm_compute; reflexivity.
Qed.

Lemma best_value : @best_num_dice_to_roll spec_float F64Ops 99 0 = Some 2.
Proof. rewrite best_99_0_eq. vm_compute. reflexivity. Qed.

(** Every roll count is within 1e-9 of 1.0 and none beats the count 2. *)
Definition near_one_not_above (o : option spec_float) : bool :=
  match o with
  | Some x => F64Facts.close_to_one (Some x) && negb (F64.gtb x one_plus_ulp)
  | None => false
  end.

Lemma rolling_near_one (n : Z) :
  0 <= n <= 10 ->
  near_one_not_above (@probability_of_winning_by_rolling_n spec_float F64Ops 99 0 n)
  = true.
Proof.
  intros Hn. rewrite rolling_99_0_eq.
  apply (forallb_Zrange
           (fun i => near_one_not_above (@rolling_99_0 spec_float F64Ops i))
           0 11); [|lia].
  vm_compute. reflexivity.
Qed.

End F64From99.

(** C8, as the code has it.  From (99, 0) every roll count 0..10 wins with
    probability exactly 1 in rational arithmetic, so all eleven counts tie and
    the selector returns the smallest, 0.  In binary64 the eleven sums are
    within 1e-9 of 1.0 but not all equal to it; none is above the value
    1.0000000000000002 of the count 2, which the selector returns, and the
    count 9 has the same value.  In neither arithmetic does a single count
    hold the maximum. *)
Theorem rolling_from_99_0 (n : Z) :
  0 <= n <= 10 ->
  @probability_of_winning_by_rolling_n Q QOps 99 0 n = Some 1%Q /\
  @best_num_dice_to_roll Q QOps 99 0 = Some 0 /\
  F64From99.near_one_not_above
    (@probability_of_winning_by_rolling_n spec_float F64Ops 99 0 n) = true /\
  @best_num_dice_to_roll spec_float F64Ops 99 0 = Some 2 /\
  @probability_of_winning_by_rolling_n spec_float F64Ops 99 0 2
    = Some F64From99.one_plus_ulp /\
  @probability_of_winning_by_rolling_n spec_float F64Ops 99 0 9
    = Some F64From99.one_plus_ulp.
Proof.
  intros Hn.
  destruct F64From99.rolling_values as (_ & _ & H2 & H9).
  split; [apply rolling_99_0_Q; lia|].
  split; [exact best_99_0_Q|].
  split; [exact (F64From99.rolling_near_one n Hn)|].
  split; [exact F64From99.best_value|].
  split; [exact H2 | exact H9].
Qed.

Lemma rolling_from_99_0_witness :
  @probability_of_winning_by_rolling_n Q QOps 99 0 3 = Some 1%Q /\
  @best_num_dice_to_roll spec_float F64Ops 99 0 = Some 2.
Proof.
  destruct (rolling_from_99_0 3 ltac:(lia)) as (HQ & _ & _ & HF & _).
  split; [exact HQ | exact HF].
Defined.

(** The claim of C8 fails on the code: rolling one die from (99, 0) has the
    binary64 value 0.9999999999999998, not 1.0; and the maximum is shared, by
    the counts 2 and 9 in binary64 and by the counts 0 and 1 (and all others)
    in exact arithmetic. *)
Lemma rolling_from_99_0_not_one :
  ~ (forall n, 1 <= n <= 10 ->
       @probability_of_winning_by_rolling_n spec_float F64Ops 99 0 n
       = Some (F64.of_Z 1)) /\
  @probability_of_winning_by_rolling_n spec_float F64Ops 99 0 1
    = Some F64From99.one_minus_2ulp /\
  SFeqb F64From99.one_minus_2ulp (F64.of_Z 1) = false /\
  @probability_of_winning_by_rolling_n spec_float F64Ops 99 0 2
    = @probability_of_winning_by_rolling_n spec_float F64Ops 99 0 9 /\
  @probability_of_winning_by_rolling_n Q QOps 99 0 0
    = @probability_of_winning_by_rolling_n Q QOps 99 0 1.
Proof.
  destruct F64From99.rolling_values as (_ & H1 & H2 & H9).
  split.
  { intros Hall. specialize (Hall 1 ltac:(lia)).
    rewrite H1 in Hall. vm_compute in Hall. discriminate. }
  split; [exact H1|]. split; [vm_compute; reflexivity|].
  split; [exact (eq_trans H2 (eq_sym H9))|].
  exact (eq_trans (rolling_99_0_Q 0 ltac:(lia)) (eq_sym (rolling_99_0_Q 1 ltac:(lia)))).
Qed.

(** ** The simulator: taking a turn *)

Module Simulator.

Import String.

(** The Python objects a caller can pass as [num_rolls];
    [type(x) == int] holds of [PyInt] alone ([type(True)] is [bool]). *)
Inductive pyobj : Type :=
| PyInt (z : Z)
| PyBool (b : bool)
| PyFloat (x : spec_float)
| PyNone.

(** What a call does: return a value, or fail an [assert] with a
    message. *)
Inductive outcome (A : Type) : Type :=
| Returns (a : A)
| AssertionError (msg : String.string).
Arguments Returns {A} a.
Arguments AssertionError {A} msg.

Section Dice.

(** A dice is a function of no argument with a state of its own: a call
    gives an outcome and the next state. *)
Variable D : Type.
Variable dice : D -> Z * D.

(** The loop of [roll_dice]: [cnt] calls of the dice. *)
Fixpoint roll_loop (cnt : nat) (rolled_one : bool) (sum : Z) (d : D)
    : bool * Z * D :=
  match cnt with
  | O => (rolled_one, sum, d)
  | S cnt' =>
      let (roll_res, d') := dice d in
      roll_loop cnt' (if roll_res =? 1 then true else rolled_one)
                (sum + roll_res) d'
  end.

Definition roll_dice (num_rolls : pyobj) (d : D) : outcome (Z * D) :=
  match num_rolls with
  | PyInt n =>
      if negb (n >? 0) then AssertionError "Must roll at least once."%string
      else
        let '(rolled_one, sum, d') := roll_loop (Z.to_nat n) false 0 d in
        Returns (if rolled_one then 1 else sum, d')
  | _ => AssertionError "num_rolls must be an integer."%string
  end.

Definition take_turn (num_rolls : pyobj) (opponent_score : Z) (d : D)
    : outcome (Z * D) :=
  match num_rolls with
  | PyInt n =>
      if negb (n >=? 0) then
        AssertionError "Cannot roll a negative number of dice."%string
      else if negb (n <=? 10) then
        AssertionError "Cannot roll more than 10 dice."%string
      else if negb (opponent_score <? 100) then
        AssertionError "The game should be over."%string
      else if n =? 0 then
        Returns (Z.max (opponent_score mod 10) (opponent_score / 10) + 1, d)
      else roll_dice num_rolls d
  | _ => AssertionError "num_rolls must be an integer."%string
  end.

Definition is_int (x : pyobj) : Prop := exists n, x = PyInt n.

Definition fails {A : Type} (o : outcome A) : Prop :=
  exists msg, o = AssertionError msg.

Definition completes {A : Type} (o : outcome A) : Prop :=
  exists a, o = Returns a.

Lemma roll_dice_completes (n : Z) (d : D) :
  0 < n -> completes (roll_dice (PyInt n) d).
Proof.
  intros Hn. unfold roll_dice, completes.
  destruct (Z.gtb_spec n 0); [|lia]. cbn [negb].
  destruct (roll_loop (Z.to_nat n) false 0 d) as [[r s] d']. eauto.
Qed.

(** C9, as the code has it.  [take_turn] fails an assertion exactly when
    [num_rolls] is not an int, or is outside 0..10, or the opponent's
    score is 100 or more; on every other input it returns a turn score.
    No assertion is about the sign of a point value. *)
Theorem take_turn_fails_iff (num_rolls : pyobj) (opponent_score : Z) (d : D) :
  (fails (take_turn num_rolls opponent_score d) <->
   ~ is_int num_rolls \/
   (exists n, num_rolls = PyInt n /\ (n < 0 \/ 10 < n)) \/
   100 <= opponent_score) /\
  (completes (take_turn num_rolls opponent_score d) <->
   exists n, num_rolls = PyInt n /\ 0 <= n <= 10 /\ opponent_score < 100).
Proof.
  unfold fails, completes, is_int.
  destruct num_rolls as [n|b|x|]; cbn [take_turn].
  2-4: split; split;
       [ intros _; left; intros [n Hn]; discriminate
       | intros _; eauto
       | intros [a Ha]; discriminate
       | intros (n & Hn & _); discriminate ].
  destruct (Z.geb_spec n 0); cbn [negb].
  2: { split; split.
       - intros _. right. left. exists n. split; [reflexivity | lia].
       - eauto.
       - intros [a Ha]. discriminate.
       - intros (m & [= <-] & Hm & _). lia. }
  destruct (Z.leb_spec n 10); cbn [negb].
  2: { split; split.
       - intros _. right. left. exists n. split; [reflexivity | lia].
       - eauto.
       - intros [a Ha]. discriminate.
       - intros (m & [= <-] & Hm & _). lia. }
  destruct (Z.ltb_spec opponent_score 100); cbn [negb].
  2: { split; split.
       - intros _. right. right. lia.
       - eauto.
       - intros [a Ha]. discriminate.
       - intros (m & [= <-] & _ & Hm). lia. }
  assert (Hdone : completes
            (if n =? 0
             then Returns (Z.max (opponent_score mod 10) (opponent_score / 10) + 1, d)
             else roll_dice (PyInt n) d)).
  { destruct (Z.eqb_spec n 0); [unfold completes; eauto|].
    apply roll_dice_completes. lia. }
  destruct Hdone as [a Ha]. rewrite Ha. split; split.
  - intros [msg Hmsg]. discriminate.
  - intros [Hnot | [(m & [= <-] & Hm) | Hopp]]; [|lia|lia].
    elim Hnot. eauto.
  - intros _. exists n. split; [reflexivity | lia].
  - eauto.
Qed.

End Dice.

(** A dice that always shows 3. *)
Definition three (d : unit) : Z * unit := (3, d).

Lemma take_turn_fails_iff_witness :
  completes (take_turn unit three (PyInt 2) 40 tt) /\
  take_turn unit three (PyInt 2) 40 tt = Returns (6, tt).
Proof.
  split.
  - apply (take_turn_fails_iff unit three (PyInt 2) 40 tt).
    exists 2. split; [reflexivity | lia].
  - reflexivity.
Defined.

(** The claim of C9 fails on the code: with a negative opponent score,
    a negative point value, [take_turn] fails no assertion and returns a
    turn score. *)
Lemma take_turn_negative_score_returns :
  take_turn unit three (PyInt 0) (-5) tt = Returns (6, tt) /\
  ~ fails (take_turn unit three (PyInt 0) (-5) tt).
Proof.
  split; [reflexivity|]. intros [msg Hmsg]. discriminate.
Qed.

End Simulator.


(** * Further properties of the code *)

(** ** The combinatorics engine: bounds, totals, and the recursion that
       never ends *)

Lemma Zsum_nonneg (cnt : nat) :
  forall lo (f : Z -> Z),
    (forall i, lo <= i < lo + Z.of_nat cnt -> 0 <= f i) -> 0 <= Zsum cnt lo f.
Proof.
  induction cnt as [|cnt IH]; intros lo f Hf; simpl; [lia|].
  pose proof (Hf lo ltac:(lia)).
  pose proof (IH (lo + 1) f ltac:(intros i Hi; apply Hf; lia)). lia.
Qed.

Lemma Zsum_term_le (cnt : nat) :
  forall lo (f : Z -> Z) j,
    (forall i, lo <= i < lo + Z.of_nat cnt -> 0 <= f i) ->
    lo <= j < lo + Z.of_nat cnt -> f j <= Zsum cnt lo f.
Proof.
  induction cnt as [|cnt IH]; intros lo f j Hf Hj; [lia|].
  cbn [Zsum].
  pose proof (Hf lo ltac:(lia)).
  assert (Hrest : forall i, lo + 1 <= i < lo + 1 + Z.of_nat cnt -> 0 <= f i)
    by (intros i Hi; apply Hf; lia).
  pose proof (Zsum_nonneg cnt (lo + 1) f Hrest).
  destruct (Z.eq_dec j lo) as [->|Hne]; [lia|].
  pose proof (IH (lo + 1) f j Hrest ltac:(lia)). lia.
Qed.

Lemma ways_nonneg (s : Z) (m : nat) : forall k, 0 <= ways m k s.
Proof.
  induction m as [|m IH]; intros k; cbn [ways].
  - destruct (k =? 0); lia.
  - apply Zsum_nonneg. intros d _. apply IH.
Qed.

Lemma ways_le_total (s : Z) (m : nat) (k : Z) :
  1 <= s -> ways m k s <= (s - 1) ^ Z.of_nat m.
Proof.
  intros Hs.
  destruct (Z.lt_ge_cases k (2 * Z.of_nat m)) as [Hlow|Hlow].
  { rewrite ways_outside by lia. apply Z.pow_nonneg. lia. }
  destruct (Z.lt_ge_cases (s * Z.of_nat m) k) as [Hhigh|Hhigh].
  { rewrite ways_outside by lia. apply Z.pow_nonneg. lia. }
  rewrite <- (ways_total s m Hs (Z.to_nat (s * Z.of_nat m - 2 * Z.of_nat m + 1))
                (2 * Z.of_nat m)) by lia.
  apply (Zsum_term_le _ _ (fun k => ways m k s)).
  - intros i _. apply ways_nonneg.
  - lia.
Qed.

(** X1. Over any range of scores that holds 2n .. s*n, the values of
    [number_of_ways_to_score(k, n, s)] add up to (s - 1)^n, the number of
    rolls of [n] dice that show no 1. *)
Theorem number_of_ways_to_score_sum (n s lo hi : Z) :
  0 <= n -> 1 <= s -> lo <= 2 * n -> s * n <= hi ->
  exists w : Z -> Z,
    (forall k, number_of_ways_to_score k n s = Some (w k)) /\
    Zsum (Z.to_nat (hi - lo + 1)) lo w = (s - 1) ^ n.
Proof.
  intros Hn Hs Hlo Hhi. exists (fun k => ways (Z.to_nat n) k s). split.
  - intros k. now apply number_of_ways_to_score_ways.
  - rewrite ways_total by lia. now rewrite Z2Nat.id.
Qed.

Lemma number_of_ways_to_score_sum_witness :
  exists w : Z -> Z,
    (forall k, number_of_ways_to_score k 2 6 = Some (w k)) /\
    Zsum (Z.to_nat (12 - 4 + 1)) 4 w = (6 - 1) ^ 2.
Proof.
  apply (number_of_ways_to_score_sum 2 6 4 12); lia.
Defined.

(** X2. For [0 <= n] and [1 <= s] the count is never negative, never above
    (s - 1)^n, and zero for every score outside 2n .. s*n. *)
Theorem number_of_ways_to_score_bounds (k n s : Z) :
  0 <= n -> 1 <= s ->
  exists w,
    number_of_ways_to_score k n s = Some w /\
    0 <= w <= (s - 1) ^ n /\
    (k < 2 * n \/ s * n < k -> w = 0).
Proof.
  intros Hn Hs. exists (ways (Z.to_nat n) k s).
  split; [now apply number_of_ways_to_score_ways|].
  split.
  - split; [apply ways_nonneg|].
    rewrite <- (Z2Nat.id n) at 2 by trivial. now apply ways_le_total.
  - intros Hk. apply ways_outside. lia.
Qed.

Lemma number_of_ways_to_score_bounds_witness :
  exists w,
    number_of_ways_to_score 13 2 6 = Some w /\
    0 <= w <= (6 - 1) ^ 2 /\
    (13 < 2 * 2 \/ 6 * 2 < 13 -> w = 0).
Proof.
  apply (number_of_ways_to_score_bounds 13 2 6); lia.
Defined.

(** X3. With a negative number of dice and a die of two sides or more the
    recursion on [n - 1] never reaches [n == 0]: no depth of calls is enough.
    With fewer than two sides the loop over the faces does not run and the
    call returns 0. *)
Theorem number_of_ways_to_score_negative_n (k n s : Z) :
  n < 0 ->
  (2 <= s -> forall fuel, number_of_ways_to_score_at fuel k n s = None) /\
  (s < 2 -> number_of_ways_to_score k n s = Some 0).
Proof.
  intros Hn. split.
  - intros Hs fuel. revert k n Hn.
    induction fuel as [|fuel IH]; intros k n Hn; [reflexivity|].
    rewrite number_of_ways_to_score_at_S.
    rewrite (proj2 (Z.eqb_neq n 0)) by lia.
    unfold for_upto.
    replace (Z.to_nat (s - 2 + 1)) with (S (Z.to_nat (s - 2))) by lia.
    cbn [while_upto]. rewrite IH by lia. reflexivity.
  - intros Hs. unfold number_of_ways_to_score.
    rewrite number_of_ways_to_score_at_S.
    rewrite (proj2 (Z.eqb_neq n 0)) by lia.
    unfold for_upto.
    replace (Z.to_nat (s - 2 + 1)) with O by lia. reflexivity.
Qed.

Lemma number_of_ways_to_score_negative_n_witness :
  number_of_ways_to_score_at 50 7 (-1) 6 = None /\
  number_of_ways_to_score 7 (-1) 1 = Some 0.
Proof.
  destruct (number_of_ways_to_score_negative_n 7 (-1) 6 ltac:(lia)) as [H6 _].
  destruct (number_of_ways_to_score_negative_n 7 (-1) 1 ltac:(lia)) as [_ H1].
  split; [apply H6; lia | apply H1; lia].
Defined.

(** X4. [probability_of_scoring] divides by [pow(s, n)]: with a die of no
    side and one roll or more it fails, for every score [k] and whatever the
    arithmetic, on a division by zero. *)
Theorem probability_of_scoring_zero_sides (R : Type) (ops : NumOps R) (k n : Z) :
  1 <= n -> @probability_of_scoring R ops k n 0 = None.
Proof.
  intros Hn. unfold probability_of_scoring, truediv.
  rewrite (Z.pow_0_l n) by lia. cbn [Z.eqb].
  destruct (k =? 1); [reflexivity|].
  rewrite number_of_ways_to_score_ways by lia. reflexivity.
Qed.

Lemma probability_of_scoring_zero_sides_witness :
  @probability_of_scoring Q QOps 3 2 0 = None.
Proof.
  apply (probability_of_scoring_zero_sides Q QOps 3 2). lia.
Defined.

(** ** Win probabilities are probabilities, and the selector maximizes *)

From Stdlib Require Import Lqa.








Lemma Some_eq {A : Type} (x y : A) : Some x = Some y -> x = y.
Proof. congruence. Qed.















(** X9. The Swine Swap exchanges the scores exactly when one is the double
    of the other; it keeps the sum of the scores, and swapping twice gives back
    the scores one started with. *)
Theorem swine_swap_involution (score opp : Z) :
  swine_swap score opp =
    (if (score =? 2 * opp) || (opp =? 2 * score) then (opp, score) else (score, opp)) /\
  fst (swine_swap score opp) + snd (swine_swap score opp) = score + opp /\
  swine_swap (fst (swine_swap score opp)) (snd (swine_swap score opp)) = (score, opp).
Proof.
  split; [|split; [apply swine_swap_sum|]].
  - unfold swine_swap.
    destruct (Z.eqb_spec (score * 2) opp), (Z.eqb_spec (opp * 2) score),
             (Z.eqb_spec score (2 * opp)), (Z.eqb_spec opp (2 * score));
      cbn [orb]; try reflexivity; lia.
  - unfold swine_swap.
    destruct (Z.eqb_spec (score * 2) opp), (Z.eqb_spec (opp * 2) score);
      cbn [orb fst snd];
      repeat match goal with
             | |- context [?a =? ?b] => destruct (Z.eqb_spec a b)
             end; cbn [orb]; try reflexivity; try lia; f_equal; lia.
Qed.

(** ** The [memoized] decorator *)

Module Memo.

(** The cache of a decorated function is a Python dict from argument
    tuples to results: an association list, the latest entry of a key first.
    The decorated function runs with the cache as its state, since in the
    engine it calls decorated functions itself, and it may fail. *)
Section Memoized.

Variables K V : Type.
Variable eqb : K -> K -> bool.

Definition cache : Type := list (K * V).

Fixpoint lookup (args : K) (c : cache) : option V :=
  match c with
  | [] => None
  | (key, v) :: c' => if eqb args key then Some v else lookup args c'
  end.

(** The [wrapper] that [memoized(func)] returns, called on [args]. *)
Definition memoized (func : K -> cache -> option (V * cache))
    (args : K) (c : cache) : option (V * cache) :=
  match lookup args c with
  | Some v => Some (v, c)
  | None =>
      match func args c with
      | Some (result, c') => Some (result, (args, result) :: c')
      | None => None
      end
  end.

(** X10. After a call of a decorated function has returned, a call with
    the same arguments returns the same result and leaves the cache as it is,
    without running the function: whatever the function would do by now, fail
    included. *)
Theorem memoized_idempotent
    (func func' : K -> cache -> option (V * cache)) (args : K) (c c' : cache) (v : V) :
  (forall a, eqb a a = true) ->
  memoized func args c = Some (v, c') ->
  memoized func' args c' = Some (v, c').
Proof.
  intros Hrefl. unfold memoized.
  destruct (lookup args c) as [v0|] eqn:Ehit.
  - intros [= <- <-]. now rewrite Ehit.
  - destruct (func args c) as [[result c1]|]; [|discriminate].
    intros [= <- <-]. cbn [lookup]. now rewrite Hrefl.
Qed.

End Memoized.

Arguments lookup {K V} eqb args c.
Arguments memoized {K V} eqb func args c.

(** The key of [number_of_ways_to_score]: the tuple (k, n, s). *)
Definition key_eqb (a b : Z * Z * Z) : bool :=
  let '(k1, n1, s1) := a in
  let '(k2, n2, s2) := b in
  (k1 =? k2) && (n1 =? n2) && (s1 =? s2).

Lemma key_eqb_eq (a b : Z * Z * Z) : key_eqb a b = true <-> a = b.
Proof.
  destruct a as [[k1 n1] s1], b as [[k2 n2] s2]. unfold key_eqb.
  rewrite !andb_true_iff, !Z.eqb_eq. split.
  - intros [[-> ->] ->]. reflexivity.
  - intros [= -> -> ->]. auto.
Qed.

Lemma key_eqb_refl (a : Z * Z * Z) : key_eqb a a = true.
Proof. now apply key_eqb_eq. Qed.

Definition ways_cache : Type := list (Z * Z * Z * Z).

(** [number_of_ways_to_score] as it runs, decorated: every recursive call
    goes through the cache.  [fuel] bounds the depth of the calls. *)
Fixpoint number_of_ways_to_score_memo (fuel : nat) (args : Z * Z * Z)
    (c : ways_cache) : option (Z * ways_cache) :=
  match fuel with
  | O => None
  | S fuel' =>
      memoized key_eqb
        (fun '(k, n, s) c =>
           if n =? 0 then
             if k =? 0 then Some (1, c) else Some (0, c)
           else
             for_upto 2 s
               (fun dice (st : Z * ways_cache) =>
                  let (ways, c) := st in
                  r <- number_of_ways_to_score_memo fuel' (k - dice, n - 1, s) c ;;
                  let (w, c') := r in
                  Some (ways + w, c'))
               (0, c))
        args c
  end.

(** A cache that holds only results of the plain function. *)
Definition sound (c : ways_cache) : Prop :=
  forall k n s v,
    lookup key_eqb (k, n, s) c = Some v -> number_of_ways_to_score k n s = Some v.

(** Every entry of [c] is found in [c'], with the same result. *)
Definition extends (c c' : ways_cache) : Prop :=
  forall key v, lookup key_eqb key c = Some v -> lookup key_eqb key c' = Some v.

Lemma extends_refl (c : ways_cache) : extends c c.
Proof. intros key v H. exact H. Qed.

Lemma extends_trans (c1 c2 c3 : ways_cache) :
  extends c1 c2 -> extends c2 c3 -> extends c1 c3.
Proof. intros H12 H23 key v H. apply H23, H12, H. Qed.

Lemma extends_store (c c' : ways_cache) (key : Z * Z * Z) (v : Z) :
  lookup key_eqb key c = None -> extends c c' -> extends c ((key, v) :: c').
Proof.
  intros Hmiss Hext key' v' Hfound. cbn [lookup].
  destruct (key_eqb key' key) eqn:E.
  - apply key_eqb_eq in E. subst key'. rewrite Hmiss in Hfound. discriminate.
  - apply Hext, Hfound.
Qed.

Lemma sound_store (c : ways_cache) (k n s v : Z) :
  sound c -> number_of_ways_to_score k n s = Some v -> sound ((k, n, s, v) :: c).
Proof.
  intros Hc Hv k' n' s' v'. cbn [lookup].
  destruct (key_eqb (k', n', s') (k, n, s)) eqn:E.
  - apply key_eqb_eq in E. injection E as -> -> ->. intros [= <-]. exact Hv.
  - apply Hc.
Qed.

(** A loop whose body keeps an invariant and returns, returns. *)
Lemma while_upto_inv_total {A : Type} (I : Z -> A -> Prop) (cnt : nat) :
  forall (lo : Z) (body : Z -> A -> option A) (acc : A),
    (forall i a, lo <= i < lo + Z.of_nat cnt -> I i a ->
       exists b, body i a = Some b /\ I (i + 1) b) ->
    I lo acc ->
    exists r, while_upto cnt lo body acc = Some r /\ I (lo + Z.of_nat cnt) r.
Proof.
  induction cnt as [|cnt IH]; intros lo body acc Hstep Hinit; cbn [while_upto].
  - exists acc. rewrite Z.add_0_r. auto.
  - destruct (Hstep lo acc ltac:(lia) Hinit) as (acc' & -> & Hacc').
    destruct (IH (lo + 1) body acc') as (r & Hr & HI); [|exact Hacc'|].
    + intros i a Hi. apply Hstep. lia.
    + exists r. split; [exact Hr|].
      replace (lo + Z.of_nat (S cnt)) with (lo + 1 + Z.of_nat cnt) by lia.
      exact HI.
Qed.

Lemma number_of_ways_to_score_memo_correct (fuel : nat) :
  forall k n s c,
    sound c -> 0 <= n -> (Z.to_nat n < fuel)%nat ->
    exists c',
      number_of_ways_to_score_memo fuel (k, n, s) c
        = Some (ways (Z.to_nat n) k s, c') /\
      sound c' /\ extends c c' /\
      lookup key_eqb (k, n, s) c' = Some (ways (Z.to_nat n) k s).
Proof.
  induction fuel as [|fuel IH]; intros k n s c Hc Hn Hfuel; [lia|].
  cbn [number_of_ways_to_score_memo]. unfold memoized.
  destruct (lookup key_eqb (k, n, s) c) as [v|] eqn:Ehit.
  - pose proof (Hc _ _ _ _ Ehit) as Hv.
    rewrite number_of_ways_to_score_ways in Hv by trivial.
    apply Some_eq in Hv. subst v.
    exists c. repeat split; [exact Hc | apply extends_refl | exact Ehit].
  - assert (Hstore : forall v c1,
              v = ways (Z.to_nat n) k s -> sound c1 -> extends c c1 ->
              sound ((k, n, s, v) :: c1) /\ extends c ((k, n, s, v) :: c1) /\
              lookup key_eqb (k, n, s) ((k, n, s, v) :: c1) = Some v).
    { intros v c1 -> Hc1 Hext. split; [|split].
      - apply sound_store; [exact Hc1|]. now apply number_of_ways_to_score_ways.
      - now apply extends_store.
      - cbn [lookup]. now rewrite key_eqb_refl. }
    destruct (Z.eqb_spec n 0) as [->|Hn0].
    + assert (Hbase : ways (Z.to_nat 0) k s = if k =? 0 then 1 else 0)
        by reflexivity.
      rewrite Hbase in *.
      destruct (k =? 0); eexists; (split; [reflexivity|]);
        (apply Hstore; [reflexivity | exact Hc | apply extends_refl]).
    + cbv iota. unfold for_upto.
      match goal with
      | |- context [while_upto ?cnt ?lo ?body ?init] =>
          destruct (while_upto_inv_total
                      (fun i (st : Z * ways_cache) =>
                         fst st = Zsum (Z.to_nat (i - 2)) 2
                                    (fun d => ways (Z.to_nat (n - 1)) (k - d) s) /\
                         sound (snd st) /\ extends c (snd st))
                      cnt lo body init) as ([v c1] & Eloop & Hv & Hc1 & Hext);
            [| |rewrite Eloop]
      end.
      * intros i [acc c0] Hi (Hacc & Hc0 & Hext0). cbn [fst snd] in *.
        destruct (IH (k - i) (n - 1) s c0 Hc0 ltac:(lia) ltac:(lia))
          as (c' & -> & Hc' & Hext' & _).
        cbn [bind]. eexists. split; [reflexivity|]. cbn [fst snd].
        split; [|split; [exact Hc' | exact (extends_trans _ _ _ Hext0 Hext')]].
        replace (Z.to_nat (i + 1 - 2)) with (Z.to_nat (i - 2) + 1)%nat by lia.
        rewrite Zsum_split, Hacc. cbn [Zsum].
        replace (2 + Z.of_nat (Z.to_nat (i - 2))) with i by lia. lia.
      * cbn [fst snd]. repeat split; [exact Hc | apply extends_refl].
      * cbn [fst snd] in *.
        assert (Ev : v = ways (Z.to_nat n) k s).
        { rewrite Hv. replace (Z.to_nat n) with (S (Z.to_nat (n - 1))) by lia.
          cbn [ways]. f_equal. lia. }
        clear Hv. subst v. eexists. split; [reflexivity|].
        apply Hstore; [reflexivity | exact Hc1 | exact Hext].
Qed.

(** X11. The decorated [number_of_ways_to_score], started on any cache that
    holds only results of the plain function, returns for [0 <= n] what the
    plain function returns; the cache it leaves holds only such results still,
    has kept every entry it had, and has an entry for the arguments of the
    call. *)
Theorem number_of_ways_to_score_memo_agrees (k n s : Z) (c : ways_cache) :
  sound c -> 0 <= n ->
  exists v c',
    number_of_ways_to_score k n s = Some v /\
    number_of_ways_to_score_memo (S (Z.to_nat n)) (k, n, s) c = Some (v, c') /\
    sound c' /\ extends c c' /\ lookup key_eqb (k, n, s) c' = Some v.
Proof.
  intros Hc Hn.
  destruct (number_of_ways_to_score_memo_correct (S (Z.to_nat n)) k n s c Hc Hn
              ltac:(lia)) as (c' & E & Hc' & Hext & Hfound).
  exists (ways (Z.to_nat n) k s), c'.
  split; [now apply number_of_ways_to_score_ways|]. auto.
Qed.

Lemma empty_sound : sound [].
Proof. intros k n s v H. discriminate. Qed.

Lemma number_of_ways_to_score_memo_agrees_witness :
  exists v c',
    number_of_ways_to_score 7 2 6 = Some v /\
    number_of_ways_to_score_memo (S (Z.to_nat 2)) (7, 2, 6) [] = Some (v, c') /\
    sound c' /\ extends [] c' /\ lookup key_eqb (7, 2, 6) c' = Some v.
Proof.
  apply (number_of_ways_to_score_memo_agrees 7 2 6 [] empty_sound). lia.
Defined.

Lemma memoized_idempotent_witness :
  memoized key_eqb (fun _ _ => None) (7, 2, 6) [((7, 2, 6), 4)]
  = Some (4, [((7, 2, 6), 4)]).
Proof.
  apply (memoized_idempotent (Z * Z * Z) Z key_eqb
           (fun _ c => Some (4, c)) (fun _ _ => None) (7, 2, 6) [] _ 4 key_eqb_refl).
  reflexivity.
Defined.

End Memo.

(** ** The simulator: rolling dice and taking turns *)

Module Turns.

Import Simulator.

Section Dice.

Variable D : Type.
Variable dice : D -> Z * D.

(** The outcomes of [cnt] calls of the dice from the state [d], in order,
    and the state they leave. *)
Fixpoint outcomes (cnt : nat) (d : D) : list Z * D :=
  match cnt with
  | O => ([], d)
  | S cnt' =>
      let (r, d') := dice d in
      let (rs, d'') := outcomes cnt' d' in
      (r :: rs, d'')
  end.

Lemma length_outcomes (cnt : nat) :
  forall d, List.length (fst (outcomes cnt d)) = cnt.
Proof.
  induction cnt as [|cnt IH]; intros d; cbn [outcomes]; [reflexivity|].
  destruct (dice d) as [r d']. specialize (IH d').
  destruct (outcomes cnt d') as [rs d'']. cbn [fst List.length] in *. now rewrite IH.
Qed.

Lemma roll_loop_outcomes (cnt : nat) :
  forall rolled_one sum d,
    roll_loop D dice cnt rolled_one sum d =
    (rolled_one || existsb (fun r => r =? 1) (fst (outcomes cnt d)),
     sum + total (fst (outcomes cnt d)),
     snd (outcomes cnt d)).
Proof.
  induction cnt as [|cnt IH]; intros rolled_one sum d; cbn [roll_loop outcomes].
  - cbn [fst snd existsb total fold_right]. now rewrite orb_false_r, Z.add_0_r.
  - destruct (dice d) as [r d']. rewrite IH.
    destruct (outcomes cnt d') as [rs d'']. cbn [fst snd existsb total fold_right].
    assert (Eb : (if r =? 1 then true else rolled_one)
                 || existsb (fun r0 => r0 =? 1) rs
                 = rolled_one || ((r =? 1) || existsb (fun r0 => r0 =? 1) rs))
      by (destruct (r =? 1), rolled_one; reflexivity).
    rewrite Eb, (Z.add_assoc sum r). reflexivity.
Qed.

Lemma roll_dice_returns (n : Z) (d : D) :
  0 < n ->
  Z.of_nat (List.length (fst (outcomes (Z.to_nat n) d))) = n /\
  roll_dice D dice (PyInt n) d =
  Returns (if existsb (fun r => r =? 1) (fst (outcomes (Z.to_nat n) d))
           then 1
           else total (fst (outcomes (Z.to_nat n) d)),
           snd (outcomes (Z.to_nat n) d)).
Proof.
  intros Hn. split; [rewrite length_outcomes; lia|].
  cbn [roll_dice]. destruct (Z.gtb_spec n 0); [|lia]. cbn [negb].
  rewrite roll_loop_outcomes. cbn [orb]. reflexivity.
Qed.

(** X12. [roll_dice] fails an assertion when [num_rolls] is not an int or
    is not positive.  Otherwise it calls the dice exactly [num_rolls] times and
    returns 1 when one of the outcomes is 1 (Pig Out), and the sum of the
    outcomes when none is. *)
Theorem roll_dice_outcomes (num_rolls : pyobj) (d : D) :
  (fails (roll_dice D dice num_rolls d) <->
   ~ is_int num_rolls \/ exists n, num_rolls = PyInt n /\ n <= 0) /\
  (forall n, num_rolls = PyInt n -> 0 < n ->
     Z.of_nat (List.length (fst (outcomes (Z.to_nat n) d))) = n /\
     roll_dice D dice num_rolls d =
     Returns (if existsb (fun r => r =? 1) (fst (outcomes (Z.to_nat n) d))
              then 1
              else total (fst (outcomes (Z.to_nat n) d)),
              snd (outcomes (Z.to_nat n) d))).
Proof.
  unfold fails, is_int. split.
  - destruct num_rolls as [n|b|x|]; cbn [roll_dice].
    2-4: split; [intros _; left; intros [n Hn]; discriminate | eauto].
    destruct (Z.gtb_spec n 0); cbn [negb].
    + rewrite roll_loop_outcomes. split.
      * intros [msg Hmsg]. discriminate.
      * intros [Hnot | (m & [= <-] & Hm)]; [elim Hnot; eauto | lia].
    + split; [|eauto]. intros _. right. exists n. split; [reflexivity | lia].
  - intros n -> Hn. now apply roll_dice_returns.
Qed.

(** The outcomes of a dice with sides 1..s. *)
Definition sided (s : Z) : Prop := forall d, 1 <= fst (dice d) <= s.

Lemma outcomes_sided (s : Z) (cnt : nat) :
  sided s -> forall d r, In r (fst (outcomes cnt d)) -> 1 <= r <= s.
Proof.
  intros Hs. induction cnt as [|cnt IH]; intros d r; cbn [outcomes].
  - intros [].
  - pose proof (Hs d) as Hd. destruct (dice d) as [r0 d']. cbn [fst] in Hd.
    specialize (IH d'). destruct (outcomes cnt d') as [rs d''].
    cbn [fst] in *. intros [<-|Hin]; [exact Hd | now apply IH].
Qed.

Lemma total_bounds (s : Z) (l : list Z) :
  (forall r, In r l -> 1 <= r <= s) ->
  Z.of_nat (List.length l) <= total l <= s * Z.of_nat (List.length l).
Proof.
  induction l as [|r l IH]; intros Hl; cbn [total fold_right List.length].
  - lia.
  - pose proof (Hl r (or_introl eq_refl)).
    pose proof (IH (fun x Hx => Hl x (or_intror Hx))) as IH'.
    unfold total in IH'. lia.
Qed.

Lemma take_turn_returns_within (s n opponent_score : Z) (d : D) :
  sided s -> 0 <= n <= 10 -> 0 <= opponent_score < 100 ->
  exists r d',
    take_turn D dice (PyInt n) opponent_score d = Returns (r, d') /\
    (n = 0 -> r = free_bacon opponent_score /\ 1 <= r <= 10 /\ d' = d) /\
    (1 <= n -> 1 <= r <= s * n).
Proof.
  intros Hs Hn Ho. cbn [take_turn].
  destruct (Z.geb_spec n 0); [|lia]. destruct (Z.leb_spec n 10); [|lia].
  destruct (Z.ltb_spec opponent_score 100); [|lia]. cbn [negb].
  destruct (Z.eqb_spec n 0) as [->|Hn0].
  - eexists. eexists. split; [reflexivity|]. split; [|lia].
    intros _. split; [reflexivity|]. split; [|reflexivity].
    pose proof (Z.mod_pos_bound opponent_score 10 ltac:(lia)).
    assert (0 <= opponent_score / 10 <= 9).
    { split; [apply Z.div_pos; lia|].
      apply Z.lt_succ_r, Z.div_lt_upper_bound; lia. }
    lia.
  - destruct (roll_dice_returns n d ltac:(lia)) as [Hlen ->].
    eexists. eexists. split; [reflexivity|]. split; [lia|]. intros _.
    pose proof (total_bounds s _ (outcomes_sided s (Z.to_nat n) Hs d)) as Ht.
    rewrite Hlen in Ht.
    pose proof (Hs d) as Hd.
    destruct (existsb _ _); lia.
Qed.

(** X13. A valid turn (an int [num_rolls] in 0..10 and an opponent score in
    0..99) with a dice whose outcomes are in 1..s returns a turn score: with no
    dice, the free-bacon score, which is within 1..10, and the dice is not
    called; with [num_rolls >= 1] dice, a score within 1 .. s * num_rolls. *)
Theorem take_turn_score_bounds (s n opponent_score : Z) (d : D) :
  sided s -> 0 <= n <= 10 -> 0 <= opponent_score < 100 ->
  exists r d',
    take_turn D dice (PyInt n) opponent_score d = Returns (r, d') /\
    (n = 0 -> r = free_bacon opponent_score /\ 1 <= r <= 10 /\ d' = d) /\
    (1 <= n -> 1 <= r <= s * n).
Proof. apply take_turn_returns_within. Qed.

End Dice.

Lemma roll_dice_outcomes_witness :
  roll_dice unit three (PyInt 2) tt = Returns (6, tt).
Proof.
  destruct (proj2 (roll_dice_outcomes unit three (PyInt 2) tt) 2 eq_refl ltac:(lia))
    as [_ E].
  rewrite E. reflexivity.
Defined.

Lemma take_turn_score_bounds_witness :
  exists r d',
    take_turn unit three (PyInt 2) 40 tt = Returns (r, d') /\
    (2 = 0 -> r = free_bacon 40 /\ 1 <= r <= 10 /\ d' = tt) /\
    (1 <= 2 -> 1 <= r <= 6 * 2).
Proof.
  apply (take_turn_score_bounds unit three 6 2 40 tt).
  - intros d. cbn [three fst]. lia.
  - lia.
  - lia.
Defined.

End Turns.

(** ** The simulator: playing a game *)

Module Game.

Import Simulator.

Definition other (who : Z) : Z := 1 - who.

Section Play.

(** The four-sided and the six-sided dice of the game share one state (the
    random generator). *)
Variable D : Type.
Variables four_sided six_sided : D -> Z * D.

Definition select_dice (score opponent_score : Z) : D -> Z * D :=
  if (score + opponent_score) mod 7 =? 0 then four_sided else six_sided.

(** A strategy returns a Python object, which [take_turn] checks. *)
Definition strategy : Type := Z -> Z -> pyobj.

(** The loop of [play]: [None] when [fuel] turns were not enough to end
    the game, and the first failed assertion when a turn fails one. *)
Fixpoint play_loop (fuel : nat) (strategy0 strategy1 : strategy) (goal : Z)
    (who score opponent_score : Z) (d : D) : option (outcome (Z * Z * D)) :=
  if (score <? goal) && (opponent_score <? goal) then
    match fuel with
    | O => None
    | S fuel' =>
        let dice := select_dice score opponent_score in
        let turn :=
          if who =? 0 then
            match take_turn D dice (strategy0 score opponent_score)
                    opponent_score d with
            | Returns (r, d') => Returns (score + r, opponent_score, d')
            | AssertionError msg => AssertionError msg
            end
          else
            match take_turn D dice (strategy1 opponent_score score) score d with
            | Returns (r, d') => Returns (score, opponent_score + r, d')
            | AssertionError msg => AssertionError msg
            end in
        match turn with
        | Returns (score', opponent_score', d') =>
            let (score'', opponent_score'') := swine_swap score' opponent_score' in
            play_loop fuel' strategy0 strategy1 goal (other who)
              score'' opponent_score'' d'
        | AssertionError msg => Some (AssertionError msg)
        end
    end
  else Some (Returns (score, opponent_score, d)).

Definition play (fuel : nat) (strategy0 strategy1 : strategy) (goal : Z) (d : D)
    : option (outcome (Z * Z * D)) :=
  play_loop fuel strategy0 strategy1 goal 0 0 0 d.

(** [winner], on the final scores of a game to [GOAL_SCORE]. *)
Definition winner (fuel : nat) (strategy0 strategy1 : strategy) (d : D)
    : option (outcome (Z * D)) :=
  match play fuel strategy0 strategy1 GOAL_SCORE d with
  | Some (Returns (score0, score1, d')) =>
      Some (Returns (if score0 >? score1 then 0 else 1, d'))
  | Some (AssertionError msg) => Some (AssertionError msg)
  | None => None
  end.

(** At most one score has reached the goal. *)
Definition at_most_one (goal score opponent_score : Z) : Prop :=
  score < goal \/ opponent_score < goal.

Lemma swine_swap_at_most_one (goal score opp : Z) :
  at_most_one goal score opp ->
  at_most_one goal (fst (swine_swap score opp)) (snd (swine_swap score opp)).
Proof.
  unfold at_most_one, swine_swap.
  destruct ((score * 2 =? opp) || (opp * 2 =? score)); cbn [fst snd]; tauto.
Qed.

Lemma play_loop_end (fuel : nat) (strategy0 strategy1 : strategy) (goal : Z) :
  forall who score opp d score0 score1 d',
    at_most_one goal score opp ->
    play_loop fuel strategy0 strategy1 goal who score opp d
      = Some (Returns (score0, score1, d')) ->
    (goal <= score0 /\ score1 < goal) \/ (score0 < goal /\ goal <= score1).
Proof.
  induction fuel as [|fuel IH]; intros who score opp d score0 score1 d' Hone;
    cbn [play_loop];
    destruct (Z.ltb_spec score goal) as [Hs|Hs];
    destruct (Z.ltb_spec opp goal) as [Ho|Ho]; cbn [andb];
    try discriminate;
    try (intros [= <- <- <-]; unfold at_most_one in Hone; lia).
  set (dice := select_dice score opp).
  destruct (who =? 0).
  - destruct (take_turn D dice (strategy0 score opp) opp d) as [[r d1]|msg];
      [|discriminate].
    pose proof (swine_swap_at_most_one goal (score + r) opp (or_intror Ho)) as Hnext.
    destruct (swine_swap (score + r) opp) as [s2 o2]. apply IH, Hnext.
  - destruct (take_turn D dice (strategy1 opp score) score d) as [[r d1]|msg];
      [|discriminate].
    pose proof (swine_swap_at_most_one goal score (opp + r) (or_introl Hs)) as Hnext.
    destruct (swine_swap score (opp + r)) as [s2 o2]. apply IH, Hnext.
Qed.

(** X14. When a game to a positive goal ends, exactly one of the two
    final scores has reached the goal, whatever the strategies and the dice;
    and [winner] answers 0 exactly when the first final score is the one that
    reached 100. *)
Theorem play_ends_with_one_winner
    (fuel : nat) (strategy0 strategy1 : strategy) (goal : Z) (d : D)
    (score0 score1 : Z) (d' : D) :
  0 < goal ->
  play fuel strategy0 strategy1 goal d = Some (Returns (score0, score1, d')) ->
  ((goal <= score0 /\ score1 < goal) \/ (score0 < goal /\ goal <= score1)) /\
  (goal = GOAL_SCORE ->
   exists w, winner fuel strategy0 strategy1 d = Some (Returns (w, d')) /\
             (w = 0 \/ w = 1) /\ (w = 0 <-> 100 <= score0)).
Proof.
  intros Hgoal Hplay.
  assert (Hend : (goal <= score0 /\ score1 < goal) \/ (score0 < goal /\ goal <= score1)).
  { apply (play_loop_end fuel strategy0 strategy1 goal 0 0 0 d score0 score1 d');
      [left; lia | exact Hplay]. }
  split; [exact Hend|].
  intros ->. unfold winner. rewrite Hplay. unfold GOAL_SCORE in Hend.
  eexists. split; [reflexivity|].
  destruct (Z.gtb_spec score0 score1); split; auto; split; intros; lia.
Qed.

(** A strategy that answers an int in 0..10 on all scores. *)
Definition valid (st : strategy) : Prop :=
  forall score opp, exists n, st score opp = PyInt n /\ 0 <= n <= 10.

(** A dice whose outcomes are all positive. *)
Definition positive_dice (dice : D -> Z * D) : Prop := forall d, 1 <= fst (dice d).

Lemma take_turn_positive (dice : D -> Z * D) (n opp : Z) (d : D) :
  positive_dice dice -> 0 <= n <= 10 -> opp < 100 ->
  exists r d', take_turn D dice (PyInt n) opp d = Returns (r, d') /\ 1 <= r.
Proof.
  intros Hdice Hn Ho. cbn [take_turn].
  destruct (Z.geb_spec n 0); [|lia]. destruct (Z.leb_spec n 10); [|lia].
  destruct (Z.ltb_spec opp 100); [|lia]. cbn [negb].
  destruct (Z.eqb_spec n 0) as [->|Hn0].
  - eexists. eexists. split; [reflexivity|].
    pose proof (Z.mod_pos_bound opp 10 ltac:(lia)). lia.
  - destruct (Turns.roll_dice_returns D dice n d ltac:(lia)) as [Hlen ->].
    eexists. eexists. split; [reflexivity|].
    destruct (existsb _ _); [lia|].
    assert (Hsum : forall cnt d0,
              Z.of_nat cnt <= total (fst (Turns.outcomes D dice cnt d0))).
    { induction cnt as [|cnt IH]; intros d0; cbn [Turns.outcomes].
      - cbn. lia.
      - pose proof (Hdice d0) as Hd0. destruct (dice d0) as [r0 d1].
        specialize (IH d1). destruct (Turns.outcomes D dice cnt d1) as [rs d2].
        cbn [fst total fold_right] in *. unfold total in IH. lia. }
    pose proof (Hsum (Z.to_nat n) d). lia.
Qed.

Lemma play_loop_returns (strategy0 strategy1 : strategy) (goal : Z) (fuel : nat) :
  goal <= 100 -> valid strategy0 -> valid strategy1 ->
  positive_dice four_sided -> positive_dice six_sided ->
  forall who score opp d,
    (Z.to_nat (2 * goal - 1 - (score + opp)) <= fuel)%nat ->
    exists score0 score1 d',
      play_loop fuel strategy0 strategy1 goal who score opp d
      = Some (Returns (score0, score1, d')).
Proof.
  intros Hgoal Hv0 Hv1 H4 H6.
  assert (Hdice : forall s o, positive_dice (select_dice s o))
    by (intros s o; unfold select_dice; destruct (_ =? 0); assumption).
  induction fuel as [|fuel IH]; intros who score opp d Hfuel; cbn [play_loop];
    destruct (Z.ltb_spec score goal) as [Hs|Hs];
    destruct (Z.ltb_spec opp goal) as [Ho|Ho]; cbn [andb]; eauto; [lia|].
  destruct (who =? 0).
  - destruct (Hv0 score opp) as (n & -> & Hn).
    destruct (take_turn_positive (select_dice score opp) n opp d (Hdice _ _) Hn
                ltac:(lia)) as (r & d1 & -> & Hr).
    pose proof (swine_swap_sum (score + r) opp) as Hsum.
    destruct (swine_swap (score + r) opp) as [s2 o2]. cbn [fst snd] in Hsum.
    apply IH. lia.
  - destruct (Hv1 opp score) as (n & -> & Hn).
    destruct (take_turn_positive (select_dice score opp) n score d (Hdice _ _) Hn
                ltac:(lia)) as (r & d1 & -> & Hr).
    pose proof (swine_swap_sum score (opp + r)) as Hsum.
    destruct (swine_swap score (opp + r)) as [s2 o2]. cbn [fst snd] in Hsum.
    apply IH. lia.
Qed.

(** X15. A game to a goal of at most 100, between two strategies that
    always answer a roll count in 0..10, with dice whose outcomes are positive,
    fails no assertion and ends within [2 * goal - 1] turns: each turn adds
    one point at least to the sum of the scores, which the swap keeps. *)
Theorem play_returns (strategy0 strategy1 : strategy) (goal : Z) (fuel : nat) (d : D) :
  goal <= 100 -> valid strategy0 -> valid strategy1 ->
  positive_dice four_sided -> positive_dice six_sided ->
  (Z.to_nat (2 * goal - 1) <= fuel)%nat ->
  exists score0 score1 d',
    play fuel strategy0 strategy1 goal d = Some (Returns (score0, score1, d')).
Proof.
  intros Hgoal Hv0 Hv1 H4 H6 Hfuel. unfold play.
  apply play_loop_returns; trivial.
  replace (2 * goal - 1 - (0 + 0)) with (2 * goal - 1) by lia. exact Hfuel.
Qed.

End Play.

(** *** The basic strategies *)

Definition BASELINE_NUM_ROLLS : Z := 5.
Definition BACON_MARGIN : Z := 8.

Definition always_roll (n : Z) : Z -> Z -> Z := fun score opponent_score => n.

Definition bacon_strategy (score opponent_score : Z) : Z :=
  if Z.max (opponent_score mod 10) (opponent_score / 10) + 1 >=? BACON_MARGIN
  then 0 else BASELINE_NUM_ROLLS.

Definition swap_strategy (score opponent_score : Z) : Z :=
  let free_bacon_score :=
    score + Z.max (opponent_score mod 10) (opponent_score / 10) + 1 in
  if free_bacon_score * 2 =? opponent_score then 0
  else if free_bacon_score =? opponent_score * 2 then BASELINE_NUM_ROLLS
  else bacon_strategy score opponent_score.

Lemma bacon_strategy_0_or_5 (score opponent_score : Z) :
  bacon_strategy score opponent_score = 0 \/
  bacon_strategy score opponent_score = 5.
Proof. unfold bacon_strategy. destruct (_ >=? _); auto. Qed.

(** X16. [bacon_strategy] answers 0 or 5, whatever the scores, and does not
    look at the player's own score; it answers 0 exactly when free bacon is
    worth 8 points or more, which for an opponent score in 0..99 means a
    score of 70 or more or a last digit of 7 or more. *)
Theorem bacon_strategy_cases (score opponent_score : Z) :
  (bacon_strategy score opponent_score = 0 \/
   bacon_strategy score opponent_score = 5) /\
  bacon_strategy score opponent_score = bacon_strategy 0 opponent_score /\
  (bacon_strategy score opponent_score = 0 <-> 8 <= free_bacon opponent_score) /\
  (0 <= opponent_score <= 99 ->
   (bacon_strategy score opponent_score = 0 <->
    70 <= opponent_score \/ 7 <= opponent_score mod 10)).
Proof.
  unfold bacon_strategy, free_bacon, BACON_MARGIN, BASELINE_NUM_ROLLS.
  destruct (Z.geb_spec (Z.max (opponent_score mod 10) (opponent_score / 10) + 1) 8)
    as [Hge|Hlt].
  - split; [auto|]. split; [reflexivity|]. split; [tauto|].
    intros Ho. split; [|reflexivity]. intros _.
    destruct (Z.le_gt_cases 70 opponent_score) as [H70|H70]; [auto|].
    assert (opponent_score / 10 < 7) by (apply Z.div_lt_upper_bound; lia). lia.
  - split; [auto|]. split; [reflexivity|]. split; [split; [discriminate | lia]|].
    intros Ho. split; [discriminate|].
    intros [H70 | H7]; [|lia].
    assert (7 <= opponent_score / 10) by (apply Z.div_le_lower_bound; lia). lia.
Qed.

Lemma bacon_strategy_cases_witness :
  bacon_strategy 50 70 = 0 <-> 70 <= 70 \/ 7 <= 70 mod 10.
Proof.
  apply (bacon_strategy_cases 50 70). lia.
Defined.

(** X17. [swap_strategy] answers 0 or 5.  When taking free bacon would make
    the opponent's score the double of the player's, it answers 0; taking the
    turn then gives the free-bacon score, and the Swine Swap hands the player
    the opponent's score, twice what the opponent is left with.  When free
    bacon would instead make the player's score the double of the opponent's,
    it answers 5 and rolls. *)
Theorem swap_strategy_cases (D : Type) (dice : D -> Z * D)
    (score opponent_score : Z) (d : D) :
  (swap_strategy score opponent_score = 0 \/
   swap_strategy score opponent_score = 5) /\
  ((score + free_bacon opponent_score) * 2 = opponent_score ->
   opponent_score < 100 ->
   swap_strategy score opponent_score = 0 /\
   take_turn D dice (PyInt (swap_strategy score opponent_score)) opponent_score d
     = Returns (free_bacon opponent_score, d) /\
   swine_swap (score + free_bacon opponent_score) opponent_score
     = (opponent_score, score + free_bacon opponent_score)) /\
  (score + free_bacon opponent_score = opponent_score * 2 ->
   (score + free_bacon opponent_score) * 2 <> opponent_score ->
   swap_strategy score opponent_score = 5).
Proof.
  unfold swap_strategy, free_bacon.
  set (fb := Z.max (opponent_score mod 10) (opponent_score / 10)).
  split; [|split].
  - destruct (_ =? opponent_score); [auto|].
    destruct (_ =? opponent_score * 2); [auto|].
    destruct (bacon_strategy_0_or_5 score opponent_score); auto.
  - intros Hdouble Ho.
    rewrite (proj2 (Z.eqb_eq ((score + fb + 1) * 2) opponent_score)) by lia.
    split; [reflexivity|]. split.
    + cbn [take_turn].
      destruct (Z.ltb_spec opponent_score 100); [|lia]. reflexivity.
    + unfold swine_swap.
      rewrite (proj2 (Z.eqb_eq ((score + (fb + 1)) * 2) opponent_score)) by lia.
      reflexivity.
  - intros Hdouble Hnot.
    rewrite (proj2 (Z.eqb_neq ((score + fb + 1) * 2) opponent_score)) by lia.
    rewrite (proj2 (Z.eqb_eq (score + fb + 1) (opponent_score * 2))) by lia.
    reflexivity.
Qed.

Lemma swap_strategy_cases_witness :
  swap_strategy 23 60 = 0 /\
  take_turn unit three (PyInt (swap_strategy 23 60)) 60 tt = Returns (free_bacon 60, tt) /\
  swine_swap (23 + free_bacon 60) 60 = (60, 23 + free_bacon 60).
Proof.
  apply (swap_strategy_cases unit three 23 60 tt); [reflexivity | lia].
Defined.

Lemma take_turn_completes (D : Type) (dice : D -> Z * D) (n opp : Z) (d : D) :
  0 <= n <= 10 -> opp < 100 -> completes (take_turn D dice (PyInt n) opp d).
Proof.
  intros Hn Ho. cbn [take_turn].
  destruct (Z.geb_spec n 0); [|lia]. destruct (Z.leb_spec n 10); [|lia].
  destruct (Z.ltb_spec opp 100); [|lia]. cbn [negb].
  destruct (Z.eqb_spec n 0); [unfold completes; eauto|].
  apply roll_dice_completes. lia.
Qed.

(** X18. The roll count [final_strategy] answers is one [take_turn]
    accepts: on every state with an opponent score below 100 the turn fails no
    assertion, in every arithmetic whose [>] is a strict order. *)
Theorem final_strategy_is_accepted (R : Type) (ops : NumOps R) (ord : GtOrder R)
    (D : Type) (dice : D -> Z * D) (score opponent_score : Z) (d : D) :
  opponent_score < 100 ->
  exists n,
    @final_strategy R ops score opponent_score = Some n /\
    0 <= n <= 10 /\
    completes (take_turn D dice (PyInt n) opponent_score d).
Proof.
  intros Ho. unfold final_strategy.
  destruct (@scan_inv_final R ops ord score opponent_score)
    as ([bp bn] & _ & Ebest & Hinv).
  cbn [snd] in Ebest. exists bn. split; [exact Ebest|].
  assert (Hbn : 0 <= bn <= 10).
  { destruct Hinv as [(_ & -> & _) | (Hbn & _)]; lia. }
  split; [exact Hbn|]. now apply take_turn_completes.
Qed.

(** X19. A valid turn of the game leads to a state the engine asks the
    value of: with the dice the game selects for the state (four sides when
    the sum of the scores is a multiple of 7, six otherwise), outcomes within
    the sides of the dice, a roll count in 0..10 and an opponent score in
    0..99, the score after the turn is the free-bacon state or one of the
    states [score + 1 .. score + sides * n] of the sum of the turn value. *)
Theorem turn_reaches_engine_state (D : Type) (four_sided six_sided : D -> Z * D)
    (score opponent_score n : Z) (d : D) :
  Turns.sided D four_sided 4 -> Turns.sided D six_sided 6 ->
  0 <= n <= 10 -> 0 <= opponent_score < 100 ->
  exists r d',
    take_turn D (select_dice D four_sided six_sided score opponent_score)
      (PyInt n) opponent_score d = Returns (r, d') /\
    turn_call score opponent_score (score + r) opponent_score.
Proof.
  intros H4 H6 Hn Ho.
  assert (Hsided : Turns.sided D (select_dice D four_sided six_sided score opponent_score)
                     (hog_wild_sides score opponent_score)).
  { unfold select_dice, hog_wild_sides. destruct (_ =? 0); assumption. }
  destruct (Turns.take_turn_returns_within D _ _ n opponent_score d Hsided Hn Ho)
    as (r & d' & E & H0 & H1).
  exists r, d'. split; [exact E|].
  destruct (Z.eq_dec n 0) as [->|Hn0].
  - destruct (H0 eq_refl) as (-> & _). apply call_free_bacon.
  - apply (call_roll score opponent_score n r); [unfold MAX_DICE_ROLLS; lia|].
    apply H1. lia.
Qed.

Lemma turn_reaches_engine_state_witness :
  exists r d',
    take_turn unit (select_dice unit three three 10 4) (PyInt 1) 4 tt
      = Returns (r, d') /\
    turn_call 10 4 (10 + r) 4.
Proof.
  apply (turn_reaches_engine_state unit three three 10 4 1 tt).
  - intros d. cbn [three fst]. lia.
  - intros d. cbn [three fst]. lia.
  - lia.
  - lia.
Defined.

(** A strategy that always rolls five dice, as a Python object. *)
Definition roll_five : strategy := fun _ _ => PyInt (always_roll 5 0 0).

Lemma roll_five_valid : valid roll_five.
Proof. intros score opp. exists 5. split; [reflexivity | lia]. Qed.

Lemma three_positive : positive_dice unit three.
Proof. intros d. cbn [three fst]. lia. Qed.

Lemma play_returns_witness :
  exists score0 score1 d',
    play unit three three 199 roll_five roll_five 100 tt
    = Some (Returns (score0, score1, d')).
Proof.
  apply (play_returns unit three three roll_five roll_five 100 199 tt);
    [lia | exact roll_five_valid | exact roll_five_valid
    | exact three_positive | exact three_positive | lia].
Defined.

Lemma play_ends_with_one_winner_witness :
  exists score0 score1,
    (100 <= score0 /\ score1 < 100) \/ (score0 < 100 /\ 100 <= score1).
Proof.
  destruct (play_loop_returns unit three three roll_five roll_five 100 199
              ltac:(lia) roll_five_valid roll_five_valid
              three_positive three_positive 0 0 0 tt ltac:(lia))
    as (score0 & score1 & d' & E).
  exists score0, score1.
  apply (play_ends_with_one_winner unit three three 199 roll_five roll_five 100 tt
           score0 score1 d' ltac:(lia) E).
Defined.

Lemma final_strategy_is_accepted_witness :
  exists n,
    @final_strategy Q QOps 98 97 = Some n /\
    0 <= n <= 10 /\
    completes (take_turn unit three (PyInt n) 97 tt).
Proof.
  apply (final_strategy_is_accepted Q QOps QOrder unit three 98 97 tt). lia.
Defined.

(** *** Averaging *)

Section Averaged.

Context {R : Type} {ops : NumOps R}.

(** [fn] called on its arguments: an int result and the effect of the call
    on the state [S] (of the dice). *)
Variable S : Type.
Variable fn : S -> Z * S.

Fixpoint avg_loop (cnt : nat) (res : Z) (st : S) : Z * S :=
  match cnt with
  | O => (res, st)
  | Datatypes.S cnt' =>
      let (x, st') := fn st in
      avg_loop cnt' (res + x) st'
  end.

(** [make_averaged(fn, num_samples)(args)]. *)
Definition make_averaged (num_samples : Z) (st : S) : option (R * S) :=
  let (res, st') := avg_loop (Z.to_nat num_samples) 0 st in
  r <- truediv res num_samples ;;
  Some (r, st').

Lemma avg_loop_constant (c : Z) (cnt : nat) :
  (forall st, fst (fn st) = c) ->
  forall res st, fst (avg_loop cnt res st) = res + Z.of_nat cnt * c.
Proof.
  intros Hc. induction cnt as [|cnt IH]; intros res st; cbn [avg_loop].
  - cbn [fst]. lia.
  - pose proof (Hc st) as Hst. destruct (fn st) as [x st']. cbn [fst] in Hst.
    rewrite IH. lia.
Qed.

End Averaged.

(** X20. [make_averaged] divides the sum of the samples by [num_samples]:
    with no sample it fails on a division by zero; with a negative number of
    samples the function is never called and the result is 0 / num_samples;
    and in exact arithmetic the average of [num_samples >= 1] calls of a
    function that always returns [c] is [c]. *)
Theorem make_averaged_cases (S : Type) (fn : S -> Z * S) (num_samples : Z) (st : S) :
  (forall (R : Type) (ops : NumOps R),
     (num_samples = 0 -> @make_averaged R ops S fn num_samples st = None) /\
     (num_samples < 0 ->
      @make_averaged R ops S fn num_samples st
      = Some (int_div 0 num_samples, st))) /\
  (forall c, 1 <= num_samples -> (forall st', fst (fn st') = c) ->
     exists q st',
       @make_averaged Q QOps S fn num_samples st = Some (q, st') /\
       (q == inject_Z c)%Q).
Proof.
  split.
  - intros R ops. split.
    + intros ->. unfold make_averaged. cbn [Z.to_nat avg_loop]. reflexivity.
    + intros Hneg. unfold make_averaged.
      replace (Z.to_nat num_samples) with O by lia. cbn [avg_loop].
      unfold truediv. rewrite (proj2 (Z.eqb_neq num_samples 0)) by lia.
      reflexivity.
  - intros c HN Hc. unfold make_averaged.
    pose proof (avg_loop_constant S fn c (Z.to_nat num_samples) Hc 0 st) as Hres.
    destruct (avg_loop S fn (Z.to_nat num_samples) 0 st) as [res st'].
    cbn [fst] in Hres. subst res.
    unfold truediv. rewrite (proj2 (Z.eqb_neq num_samples 0)) by lia.
    cbn [bind int_div QOps]. eexists. eexists. split; [reflexivity|].
    rewrite Qred_correct, Z2Nat.id, Z.add_0_l, inject_Z_mult by lia.
    field. apply inject_Z_nonzero. lia.
Qed.

Lemma make_averaged_cases_witness :
  exists q st',
    @make_averaged Q QOps unit three 1000 tt = Some (q, st') /\ (q == inject_Z 3)%Q.
Proof.
  apply (make_averaged_cases unit three 1000 tt); [lia|].
  intros st'. reflexivity.
Defined.

End Game.
